(** * yarn2nix: the catalog builder and the lockfile reconciler

    A shallow embedding of [bin/yarn2nix.js].  The script reads a yarn
    lockfile, fills in missing hashes ([updateResolvedSha1], run for all
    entries under [Promise.all]), rewrites the lockfile when that changed
    something, and prints a Nix expression listing one fetcher per
    distinct cache file name ([generateNix]).

    JavaScript strings are modelled as [string], [undefined] as [None],
    the object returned by the lockfile parser as a list of keys in
    [for .. in] order, each bound to a reference into a store of entries
    (the parser binds one entry object to several keys), and the [Set] of
    names already printed as a [gset string]. *)

From stdpp Require Import base option list functions strings pretty gmap.
From Stdlib Require Import Ascii.

(** ** JavaScript string primitives used by the script *)

Module JS.

(** The double quote and the line feed, which occur inside the
    template literals of the script. *)
Definition dq : string := String "034"%char "".
Definition nl : string := String "010"%char "".

(** [s.split(sep)] for a one-character separator.  The array returned
    by JavaScript always has a first element, so it is represented by
    that element and the list of the remaining ones. *)
Fixpoint split (sep : ascii) (s : string) : string * list string :=
  match s with
  | "" => ("", [])
  | String c s' =>
      let '(p, ps) := split sep s' in
      if Ascii.eqb c sep then ("", p :: ps) else (String c p, ps)
  end.

(** [s.split(sep, limit)] for [limit >= 1]: the first [limit] pieces. *)
Definition split_limit (sep : ascii) (limit : nat) (s : string)
  : string * list string :=
  let '(p, ps) := split sep s in (p, take (pred limit) ps).

(** [let [a, b] = arr]: the first two elements; a missing second
    element is [undefined]. *)
Definition destructure2 (arr : string * list string)
  : string * option string :=
  (arr.1, head arr.2).

(** Truthiness of a value that is a string or [undefined]. *)
Definition truthy (v : option string) : bool :=
  match v with
  | None => false
  | Some "" => false
  | Some _ => true
  end.

(** Interpolation of a string or [undefined] inside a template literal. *)
Definition interp (v : option string) : string :=
  match v with
  | None => "undefined"
  | Some s => s
  end.

(** [s.substr(n)]: the string without its first [n] characters. *)
Fixpoint substr (n : nat) (s : string) : string :=
  match n, s with
  | O, _ => s
  | S _, "" => ""
  | S n', String _ s' => substr n' s'
  end.

(** [s] matches [/^pre/] for a literal [pre]: [s] starts with [pre]. *)
Fixpoint starts_with (pre s : string) : bool :=
  match pre, s with
  | "", _ => true
  | String a pre', String b s' => Ascii.eqb a b && starts_with pre' s'
  | String _ _, "" => false
  end.

(** [s] matches [/suf$/] for a literal [suf]: [s] ends with [suf]. *)
Fixpoint ends_with (suf s : string) : bool :=
  String.eqb s suf ||
  match s with
  | "" => false
  | String _ s' => ends_with suf s'
  end.

(** The character class [\w]. *)
Definition is_word_char (c : ascii) : bool :=
  let n := nat_of_ascii c in
  (Nat.leb 48 n && Nat.leb n 57) ||      (* 0-9 *)
  (Nat.leb 65 n && Nat.leb n 90) ||      (* A-Z *)
  (Nat.leb 97 n && Nat.leb n 122) ||     (* a-z *)
  Nat.eqb n 95.                          (* _ *)

(** The longest prefix of word characters, and what follows it. *)
Fixpoint span_word (s : string) : string * string :=
  match s with
  | "" => ("", "")
  | String c s' =>
      if is_word_char c
      then let '(w, r) := span_word s' in (String c w, r)
      else ("", s)
  end.

(** Every character of [s] is a word character. *)
Fixpoint all_word (s : string) : bool :=
  match s with
  | "" => true
  | String c s' => is_word_char c && all_word s'
  end.

(** [s] contains no occurrence of the character [c]. *)
Fixpoint lacks (c : ascii) (s : string) : bool :=
  match s with
  | "" => true
  | String c' s' => negb (Ascii.eqb c' c) && lacks c s'
  end.

End JS.

(** ** Data model *)

(** A field of a lockfile entry that the script never looks at: a plain
    value ([version], [integrity]) or a nested map ([dependencies]). *)
Inductive field : Type :=
  | FStr (s : string)
  | FMap (kvs : list (string * string)).

(** A lockfile entry.  [resolved] and [sha256] are the two fields the
    script reads and writes; [None] is an absent field. *)
Record LockEntry : Type := mkEntry {
  resolved : option string;
  sha256 : option string;
  others : list (string * field)
}.

#[global] Instance field_eq_dec : EqDecision field.
Proof. solve_decision. Defined.

#[global] Instance LockEntry_eq_dec : EqDecision LockEntry.
Proof. solve_decision. Defined.

(** The fetcher expression of one package: the two template literals
    bound to [src_nix_expr], with the values interpolated into them. *)
Inductive src_nix_expr : Type :=
  | fetchgitTarball (file_name url rev sha256 : string)
  | fetchurl (name url sha1 : string).

(** One element of the [packages] list that is printed. *)
Record package : Type := mkPackage {
  name : string;
  path : src_nix_expr
}.

(** How a loop or a callback ended: it ran to its end, or an exception
    left it. *)
Inductive completion : Type := Normal | Thrown.

(** What one iteration of the loop of [generateNix] computes before it
    consults the set of names: nothing ([continue]), an exception, or the
    package it would print. *)
Inductive derived : Type :=
  | Skipped
  | Failed
  | Derived (p : package).

(** ** [is_https_git] *)

Definition is_https_git (url : string) : option string :=
  if JS.starts_with "git+https://" url then Some (JS.substr 4 url)
  else if JS.ends_with ".git" url then Some url
  else None.

(** ** Stand-ins for Node's [url] and [path] modules

    [url.parse] and [path.basename] belong to the runtime, not to the
    script, and the development is parametric in them.  The two functions
    below follow the runtime on URLs of the shape
    [scheme://authority/path?query] and on POSIX paths; they serve to run
    the model on concrete lockfiles. *)

Module Node.

(** The text before the first ['?'] or ['#']. *)
Fixpoint until_query (s : string) : string :=
  match s with
  | "" => ""
  | String c s' =>
      if Ascii.eqb c "?" || Ascii.eqb c "#" then ""
      else String c (until_query s')
  end.

(** The text from the first ['/'], ['?'] or ['#'] on. *)
Fixpoint after_host (s : string) : string :=
  match s with
  | "" => ""
  | String c s' =>
      if Ascii.eqb c "/" || Ascii.eqb c "?" || Ascii.eqb c "#" then s
      else after_host s'
  end.

(** The text after the first occurrence of ["://"], if there is one. *)
Fixpoint after_scheme (s : string) : option string :=
  match s with
  | "" => None
  | String c s' =>
      if JS.starts_with "://" s then Some (JS.substr 3 s)
      else after_scheme s'
  end.

(** [url.parse(u).pathname]; [None] is [null].  Only [http] and [https]
    get the path ["/"] when the URL has none. *)
Definition pathname (u : string) : option string :=
  match after_scheme u with
  | Some rest =>
      match until_query (after_host rest) with
      | "" =>
          if JS.starts_with "http://" u || JS.starts_with "https://" u
          then Some "/" else None
      | p => Some p
      end
  | None =>
      match until_query u with
      | "" => None
      | p => Some p
      end
  end.

(** Trailing slashes removed. *)
Fixpoint strip_slashes (s : string) : string :=
  match s with
  | "" => ""
  | String c s' =>
      match strip_slashes s' with
      | "" => if Ascii.eqb c "/" then "" else String c ""
      | t => String c t
      end
  end.

(** The text after the last ['/']. *)
Fixpoint last_segment (s : string) : string :=
  match s with
  | "" => ""
  | String c s' =>
      if JS.lacks "/" s' then (if Ascii.eqb c "/" then s' else s)
      else last_segment s'
  end.

(** [path.basename(p)] on a POSIX path. *)
Definition basename (p : string) : string :=
  last_segment (strip_slashes p).

End Node.

(** ** The text that is printed *)

Definition HEAD : string :=
  "{fetchgitTarball, fetchurl, linkFarm}: rec {" +:+ JS.nl +:+
  "  offline_cache = linkFarm " +:+ JS.dq +:+ "offline" +:+ JS.dq +:+
  " packages;" +:+ JS.nl +:+
  "  packages = [".

(** The two template literals bound to [src_nix_expr]. *)
Definition render_src (e : src_nix_expr) : string :=
  match e with
  | fetchgitTarball file_name url rev sha256 =>
      JS.nl +:+
      "      fetchgitTarball " +:+ JS.dq +:+ file_name +:+ JS.dq +:+ " {" +:+ JS.nl +:+
      "        url = " +:+ JS.dq +:+ url +:+ JS.dq +:+ ";" +:+ JS.nl +:+
      "        rev = " +:+ JS.dq +:+ rev +:+ JS.dq +:+ ";" +:+ JS.nl +:+
      "        sha256 = " +:+ JS.dq +:+ sha256 +:+ JS.dq +:+ ";" +:+ JS.nl +:+
      "      }" +:+ JS.nl +:+
      "      "
  | fetchurl name url sha1 =>
      JS.nl +:+
      "      fetchurl {" +:+ JS.nl +:+
      "        name = " +:+ JS.dq +:+ name +:+ JS.dq +:+ ";" +:+ JS.nl +:+
      "        url  = " +:+ JS.dq +:+ url +:+ JS.dq +:+ ";" +:+ JS.nl +:+
      "        sha1 = " +:+ JS.dq +:+ sha1 +:+ JS.dq +:+ ";" +:+ JS.nl +:+
      "      }" +:+ JS.nl +:+
      "      "
  end.

(** The template literal printed for one package. *)
Definition render_package (p : package) : string :=
  JS.nl +:+
  "    {" +:+ JS.nl +:+
  "      name = " +:+ JS.dq +:+ name p +:+ JS.dq +:+ ";" +:+ JS.nl +:+
  "      path = " +:+ render_src (path p) +:+ ";" +:+ JS.nl +:+
  "    }".

(** ** The namespace of a dependency key *)

(** [depRange.match(/(^@\w+)\//)]: the first capture group, when the
    key is an ['@'], one or more word characters, and a ['/'].  The
    greedy [\w+] stops at the first character that is not a word
    character, and the match succeeds only if that character is ['/']. *)
Definition namespaceMatch (depRange : string) : option string :=
  match depRange with
  | String "@"%char rest =>
      match JS.span_word rest with
      | (String c w, String "/"%char _) => Some (String "@"%char (String c w))
      | _ => None
      end
  | _ => None
  end.

Definition namespace_of (depRange : string) : string :=
  match namespaceMatch depRange with
  | Some m => m +:+ "-"
  | None => ""
  end.

(** ** The split the specification describes

    The specification lets both components split [resolved] at its last
    ['#'].  [split_at_last] is that split, written from the
    specification's words, to be compared with what the script does. *)
Fixpoint split_at_last (s : string) : option (string * string) :=
  match s with
  | "" => None
  | String c s' =>
      match split_at_last s' with
      | Some (u, t) => Some (String c u, t)
      | None => if Ascii.eqb c "#" then Some ("", s') else None
      end
  end.

(** The repository URL the specification describes for a source-control
    entry: the URL without a leading [git+], whenever it has one. *)
Definition strip_git_plus (url : string) : string :=
  if JS.starts_with "git+" url then JS.substr 4 url else url.

(** ** First occurrence wins

    The list of packages that remain when every package whose name was
    already seen is dropped. *)
Fixpoint first_wins (seen : gset string) (ps : list package) : list package :=
  match ps with
  | [] => []
  | p :: ps' =>
      if decide (name p ∈ seen) then first_wins seen ps'
      else p :: first_wins ({[name p]} ∪ seen) ps'
  end.

(** ** Promises and the process *)

(** A settled promise. *)
Inductive settled (A : Type) : Type :=
  | Fulfilled (a : A)
  | Rejected (e : string).
Arguments Fulfilled {A} a.
Arguments Rejected {A} e.

(** Where a call of [updateResolvedSha1] stands once its synchronous
    part has run: it returned, or it awaits one of the two lookups. *)
Inductive pending : Type :=
  | Returned
  | AwaitSha1 (url : string)
  | AwaitGitSha1 (url rev : string).

Record options : Type := mkOptions {
  opt_lockfile : string;
  opt_no_nix : bool;
  opt_no_patch : bool
}.

(** What the process does that can be observed from outside. *)
Inductive event : Type :=
  | Stdout (line : string)
  | Stderr (line : string)
  | WriteFile (file content : string)
  | Exit (code : nat).

(** The entry objects of the lockfile, by reference. *)
Abbreviation store := (nat → LockEntry).

(** [json.object]: the keys in [for .. in] order, each with the
    reference of its entry object. *)
Abbreviation lockobj := (list (string * nat)).

(** The object as [generateNix] and [equal] see it. *)
Definition entries (obj : lockobj) (h : store) : list (string * LockEntry) :=
  (λ kr, (kr.1, h kr.2)) <$> obj.

Definition values (obj : lockobj) : list nat := obj.*2.

(** The string assigned to [pkg.resolved]: it is written between double
    quotes in the script, so nothing is interpolated into it. *)
Definition resolved_literal : string := "${url}#${pkg_sha1}".

Definition is_stdout (e : event) : bool :=
  match e with Stdout _ => true | _ => false end.

Definition is_write (e : event) : bool :=
  match e with WriteFile _ _ => true | _ => false end.

(** The status the process ends with. *)
Fixpoint exit_code (t : list event) : option nat :=
  match t with
  | [] => None
  | Exit c :: _ => Some c
  | _ :: t' => exit_code t'
  end.

(** The content of the file [file] after the run, given its content
    before. *)
Fixpoint disk_after (file : string) (before : string) (t : list event) : string :=
  match t with
  | [] => before
  | WriteFile f c :: t' =>
      disk_after file (if String.eqb f file then c else before) t'
  | _ :: t' => disk_after file before t'
  end.

Section Yarn2nix.

(** The runtime and the tools the script calls.  [None] from
    [url_parse_pathname] is a [null] pathname; a rejected lookup is a
    failed request or a failed run of [nix-prefetch-git]; [None] from
    [lockfile_parse] is a lockfile that does not parse. *)
Variable url_parse_pathname : string → option string.
Variable path_basename : string → string.
Variable getSha1 : string → settled string.
Variable getGitSha1 : string → string → settled string.
Variable lockfile_parse : string → option (lockobj * store).
Variable lockfile_stringify : list (string * LockEntry) → string.

(** *** [generateNix] *)

(** The body of the loop up to the test on [found]. *)
Definition generateNix_entry (depRange : string) (dep : LockEntry) : derived :=
  let namespace := namespace_of depRange in
  match resolved dep with
  | None | Some "" => Skipped
  | Some r =>
      let '(pkg_url, sha1) := JS.destructure2 (JS.split "#" r) in
      match url_parse_pathname pkg_url with
      | None => Failed
      | Some pathname =>
          let file_name := path_basename pathname in
          let https_git_url := is_https_git pkg_url in
          let cache_file_name :=
            match https_git_url with
            | Some _ => file_name +:+ "-" +:+ JS.interp sha1
            | None => file_name
            end in
          let full_file_name := namespace +:+ cache_file_name in
          let src :=
            match https_git_url with
            | Some git_url =>
                fetchgitTarball file_name git_url (JS.interp sha1)
                                (JS.interp (sha256 dep))
            | None => fetchurl file_name pkg_url (JS.interp sha1)
            end in
          Derived (mkPackage full_file_name src)
      end
  end.

(** The loop of [generateNix]: the packages printed, in order, and how
    the loop ended. *)
Fixpoint generateNix_loop (found : gset string)
         (lockedDependencies : list (string * LockEntry))
  : list package * completion :=
  match lockedDependencies with
  | [] => ([], Normal)
  | (depRange, dep) :: deps =>
      match generateNix_entry depRange dep with
      | Skipped => generateNix_loop found deps
      | Failed => ([], Thrown)
      | Derived p =>
          if decide (name p ∈ found) then generateNix_loop found deps
          else
            let '(ps, c) := generateNix_loop ({[name p]} ∪ found) deps in
            (p :: ps, c)
      end
  end.

(** The packages [generateNix] prints. *)
Definition packages (lockedDependencies : list (string * LockEntry))
  : list package :=
  (generateNix_loop ∅ lockedDependencies).1.

(** The lines [generateNix] prints, and how it ended. *)
Definition generateNix (lockedDependencies : list (string * LockEntry))
  : list string * completion :=
  let '(ps, c) := generateNix_loop ∅ lockedDependencies in
  (HEAD :: (render_package <$> ps) ++
     match c with Normal => ["  ];"; "}"] | Thrown => [] end,
   c).

(** The packages derived from the entries, one per entry that has a
    [resolved] field, up to the first entry at which the derivation
    fails. *)
Fixpoint candidates (lockedDependencies : list (string * LockEntry))
  : list package * completion :=
  match lockedDependencies with
  | [] => ([], Normal)
  | (depRange, dep) :: deps =>
      match generateNix_entry depRange dep with
      | Skipped => candidates deps
      | Failed => ([], Thrown)
      | Derived p => let '(ps, c) := candidates deps in (p :: ps, c)
      end
  end.

(** *** [updateResolvedSha1] *)

(** The synchronous part, up to the first [await]. *)
Definition updateResolvedSha1_start (pkg : LockEntry) : pending :=
  match resolved pkg with
  | None | Some "" => Returned
  | Some r =>
      let '(url, sha1) := JS.destructure2 (JS.split_limit "#" 2 r) in
      let https_git_url := is_https_git url in
      if negb (JS.truthy sha1) then AwaitSha1 url
      else
        match https_git_url with
        | Some git_url => AwaitGitSha1 git_url (JS.interp sha1)
        | None => Returned
        end
  end.

(** The part after the [await]: the assignment to the entry object, or
    the rejection of the promise. *)
Definition updateResolvedSha1_resume (p : pending) (pkg : LockEntry)
  : settled LockEntry :=
  match p with
  | Returned => Fulfilled pkg
  | AwaitSha1 url =>
      match getSha1 url with
      | Fulfilled pkg_sha1 =>
          Fulfilled (mkEntry (Some resolved_literal) (sha256 pkg) (others pkg))
      | Rejected e => Rejected e
      end
  | AwaitGitSha1 git_url rev =>
      match getGitSha1 git_url rev with
      | Fulfilled pkg_sha256 =>
          Fulfilled (mkEntry (resolved pkg) (Some pkg_sha256) (others pkg))
      | Rejected e => Rejected e
      end
  end.

(** One call run from start to end on an entry nobody else touches. *)
Definition updateResolvedSha1 (pkg : LockEntry) : settled LockEntry :=
  updateResolvedSha1_resume (updateResolvedSha1_start pkg) pkg.

(** Whether the lookup a call awaits fails. *)
Definition lookup_fails (p : pending) : bool :=
  match p with
  | Returned => false
  | AwaitSha1 url =>
      match getSha1 url with Rejected _ => true | Fulfilled _ => false end
  | AwaitGitSha1 git_url rev =>
      match getGitSha1 git_url rev with
      | Rejected _ => true
      | Fulfilled _ => false
      end
  end.

(** An entry that already carries the integrity data it needs: no
    [resolved] field at all, or a token that is not empty and, when the
    URL is a source-control one, a [sha256] field equal to what
    [nix-prefetch-git] answers for the repository and that revision. *)
Definition fully_hashed (pkg : LockEntry) : bool :=
  match resolved pkg with
  | None | Some "" => true
  | Some r =>
      match JS.split "#" r with
      | (url, tok :: _) =>
          negb (String.eqb tok "") &&
          match is_https_git url with
          | None => true
          | Some git_url =>
              match getGitSha1 git_url tok with
              | Fulfilled h => bool_decide (sha256 pkg = Some h)
              | Rejected _ => false
              end
          end
      | (_, []) => false
      end
  end.

(** *** [Promise.all(pkgs.map(updateResolvedSha1))] *)

(** [pkgs.map(updateResolvedSha1)] runs the synchronous part of every
    call before any lookup answers: every call reads the entry as the
    parser left it. *)
Definition start_all (pkgs : list nat) (h : store) : list (nat * pending) :=
  (λ r, (r, updateResolvedSha1_start (h r))) <$> pkgs.

(** The calls are resumed in the order [sched] in which their lookups
    answer.  The first rejection rejects the promise of [Promise.all];
    the store is returned as it is at that moment. *)
Fixpoint Promise_all (sched : list nat) (tasks : list (nat * pending))
         (h : store) : store * option string :=
  match sched with
  | [] => (h, None)
  | i :: sched' =>
      match tasks !! i with
      | None => Promise_all sched' tasks h
      | Some (r, p) =>
          match updateResolvedSha1_resume p (h r) with
          | Fulfilled pkg' => Promise_all sched' tasks (<[r := pkg']> h)
          | Rejected e => (h, Some e)
          end
      end
  end.

(** The reconciliation of a parsed lockfile. *)
Definition reconcile (sched : list nat) (obj : lockobj) (h : store)
  : store * option string :=
  Promise_all sched (start_all (values obj) h) h.

(** [equal(origJson, json)]: both have the keys of [obj]; deep equality
    compares the entries bound to them. *)
Definition equal (obj : lockobj) (orig h : store) : bool :=
  bool_decide (entries obj orig = entries obj h).

(** *** The main program

    [data] is the content of the lockfile, [sched] the order in which
    the lookups answer. *)
Definition emit_nix (opts : options) (obj : lockobj) (h : store)
  : list event :=
  if opt_no_nix opts then [Exit 0]
  else
    match generateNix (entries obj h) with
    | (lines, Normal) => (Stdout <$> lines) ++ [Exit 0]
    | (lines, Thrown) =>
        (Stdout <$> lines) ++ [Stderr "TypeError"; Exit 1]
    end.

Definition main (opts : options) (data : string) (sched : list nat)
  : list event :=
  match lockfile_parse data with
  | None => [Stderr "Error: yarn.lock parse error"; Exit 1]
  | Some (obj, orig) =>
      match reconcile sched obj orig with
      | (_, Some error) => [Stderr error; Exit 1]
      | (h, None) =>
          if negb (equal obj orig h) then
            Stderr ("found changes in the lockfile " +:+ opt_lockfile opts) ::
            if opt_no_patch opts then [Stderr "...aborting"; Exit 1]
            else
              WriteFile (opt_lockfile opts)
                        (lockfile_stringify (entries obj h)) ::
              emit_nix opts obj h
          else emit_nix opts obj h
      end
  end.

End Yarn2nix.

(** ** [getSha1]

    What the promise of [getSha1] becomes once the server has answered
    with a status code and the response emits its events.  The hash
    object of the [crypto] module is a parameter.  [None] is a promise
    that never settles. *)

(** The events of a response, in the order in which they are emitted. *)
Inductive res_event : Type :=
  | OnData (chunk : string)
  | OnEnd
  | OnError (e : string).

Section GetSha1.

Variable Hash : Type.
Variable createHash : Hash.
Variable update : Hash → string → Hash.
Variable digest : Hash → string.

(** The three handlers: [data] feeds the hash, [end] resolves with the
    digest, [error] rejects.  A promise settles once, so what follows
    the first [end] or [error] changes nothing. *)
Fixpoint getSha1_events (hash : Hash) (evs : list res_event)
  : option (settled string) :=
  match evs with
  | [] => None
  | OnData chunk :: evs' => getSha1_events (update hash chunk) evs'
  | OnEnd :: _ => Some (Fulfilled (digest hash))
  | OnError e :: _ => Some (Rejected e)
  end.

(** The callback of [https.get]: a status other than 200 rejects at
    once, before any handler is installed. *)
Definition getSha1_response (statusCode : nat) (evs : list res_event)
  : option (settled string) :=
  if negb (Nat.eqb statusCode 200) then
    Some (Rejected ("Request Failed." +:+ JS.nl +:+
                    "Status Code: " +:+ pretty statusCode))
  else getSha1_events createHash evs.

End GetSha1.

(** ** Concrete lockfiles and tools, to run the model on *)

Module Example.

Definition digest : string := "da39a3ee5e6b4b0d3255bfef95601890afd80709".
Definition nix_hash : string :=
  "0jb4s1pqmsxcq6rzik5gyqj71wkjkrmhzgr7x3zbzl3q9kbf3hbk".

(** A registry that answers every request, and one that is down. *)
Definition getSha1 (url : string) : settled string := Fulfilled digest.
Definition getSha1_down (url : string) : settled string :=
  Rejected "Error: Request Failed.".

Definition getGitSha1 (url rev : string) : settled string :=
  Fulfilled nix_hash.

Definition scoped : LockEntry :=
  mkEntry
    (Some "https://registry.yarnpkg.com/@scope/pkg/-/pkg-1.0.0.tgz#abc123")
    None [("version", FStr "1.0.0")].

Definition hyphenated : LockEntry :=
  mkEntry
    (Some "https://registry.yarnpkg.com/@my-scope/pkg/-/pkg-1.0.0.tgz#abc123")
    None [("version", FStr "1.0.0")].

Definition git : LockEntry :=
  mkEntry (Some "git+https://example.com/repo.git#deadbeef")
          (Some nix_hash)
          [("version", FStr "0.1.0")].

Definition git_unhashed : LockEntry :=
  mkEntry (Some "git+https://example.com/repo.git#deadbeef")
          None
          [("version", FStr "0.1.0")].

Definition git_ssh : LockEntry :=
  mkEntry (Some "git+ssh://git@example.com/repo.git#deadbeef")
          (Some nix_hash)
          [("version", FStr "0.1.0")].

Definition unhashed : LockEntry :=
  mkEntry (Some "https://example.com/a-1.0.0.tgz") None
          [("version", FStr "1.0.0");
           ("dependencies", FMap [("b", "^2.0.0")])].

Definition workspace : LockEntry :=
  mkEntry None None [("version", FStr "0.0.0")].

(** The store in which reference [r] is the [r]-th entry of [l]. *)
Definition store_of (l : list LockEntry) : store :=
  λ r, default workspace (l !! r).

(** A lockfile whose entries all carry their hashes; the git entry is
    bound to two keys. *)
Definition hashed_obj : lockobj :=
  [("@scope/pkg@^1.0.0", 0); ("repo@^0.1.0", 1); ("repo@~0.1.0", 1);
   ("ws@0.0.0", 2)].
Definition hashed_store : store := store_of [scoped; git; workspace].

(** A lockfile with an entry that has no hash, bound to two keys. *)
Definition unhashed_obj : lockobj :=
  [("a@^1.0.0", 0); ("a@~1.0.0", 0); ("@scope/pkg@^1.0.0", 1)].
Definition unhashed_store : store := store_of [unhashed; scoped].

Definition parse (l : lockobj * store) (data : string)
  : option (lockobj * store) := Some l.

Definition stringify (es : list (string * LockEntry)) : string :=
  String.concat JS.nl
    ((λ ke, ke.1 +:+ ": " +:+ JS.interp (resolved ke.2)) <$> es).

Definition opts (no_nix no_patch : bool) : options :=
  mkOptions "./yarn.lock" no_nix no_patch.

(** A hash that keeps the bytes it is fed. *)
Definition createHash : string := "".
Definition update (hash chunk : string) : string := hash +:+ chunk.
Definition hex (hash : string) : string := hash.

(** The same tarball name on another registry, with another hash. *)
Definition mirrored : LockEntry :=
  mkEntry (Some "https://mirror.example.org/tarballs/pkg-1.0.0.tgz#ffff00")
          None [("version", FStr "1.0.0")].

(** The git repository at another revision. *)
Definition git_later : LockEntry :=
  mkEntry (Some "git+https://example.com/repo.git#cafebabe")
          (Some nix_hash)
          [("version", FStr "0.2.0")].

(** A source-control url with no path. *)
Definition git_no_path : LockEntry :=
  mkEntry (Some "git+https://example.com#deadbeef") None [].

(** A source-control url with no revision. *)
Definition git_no_rev : LockEntry :=
  mkEntry (Some "git+https://example.com/repo.git") None [].

(** A lockfile with a git entry that has no [sha256] yet. *)
Definition git_obj : lockobj :=
  [("repo@^0.1.0", 0); ("@scope/pkg@^1.0.0", 1); ("repo@~0.1.0", 0)].
Definition git_store : store := store_of [git_unhashed; scoped].

(** A lockfile whose second entry has a url with no path. *)
Definition broken_obj : lockobj :=
  [("@scope/pkg@^1.0.0", 0); ("norepo@^1.0.0", 1); ("repo@^0.1.0", 2)].
Definition broken_store : store := store_of [scoped; git_no_path; git].

(** A registry that is down for one url only. *)
Definition getSha1_flaky (url : string) : settled string :=
  if String.eqb url "https://example.com/a-1.0.0.tgz"
  then Rejected "Error: Request Failed."
  else Fulfilled digest.

End Example.

(** * Properties *)

(** ** Strings *)

Section Strings.

Lemma split_lacks c s : JS.lacks c s = true → JS.split c s = (s, []).
Proof.
  induction s as [|a s IH]; simpl; [done|].
  intros [Ha Hs]%andb_prop. rewrite (IH Hs).
  by destruct (Ascii.eqb a c).
Qed.

Lemma split_first c u t :
  JS.lacks c u = true →
  JS.split c (u +:+ String c t) = (u, (JS.split c t).1 :: (JS.split c t).2).
Proof.
  induction u as [|a u IH]; simpl.
  - intros _. destruct (JS.split c t). by rewrite Ascii.eqb_refl.
  - intros [Ha Hu]%andb_prop. rewrite (IH Hu).
    by destruct (Ascii.eqb a c).
Qed.

Lemma split_at_last_lacks t :
  JS.lacks "#" t = true → split_at_last t = None.
Proof.
  induction t as [|a t IH]; simpl; [done|].
  intros [Ha Ht]%andb_prop. rewrite (IH Ht).
  by destruct (Ascii.eqb a "#").
Qed.

Lemma split_at_last_app u t :
  JS.lacks "#" t = true →
  split_at_last (u +:+ String "#" t) = Some (u, t).
Proof.
  intros Ht. induction u as [|a u IH]; simpl.
  - by rewrite (split_at_last_lacks t Ht).
  - by rewrite IH.
Qed.

Lemma ends_with_spec suf s :
  JS.ends_with suf s = true ↔ ∃ p, s = p +:+ suf.
Proof.
  induction s as [|a s IH].
  - change (JS.ends_with suf "") with (String.eqb "" suf || false).
    rewrite orb_false_r, String.eqb_eq. split.
    + intros <-. by exists "".
    + intros [p Hp]. destruct p; simpl in Hp; [done|discriminate].
  - change (JS.ends_with suf (String a s))
      with (String.eqb (String a s) suf || JS.ends_with suf s).
    rewrite orb_true_iff, String.eqb_eq, IH. split.
    + intros [<-|[p ->]]; [by exists ""|by exists (String a p)].
    + intros [[|b p] Hp]; simpl in Hp; [by left|].
      injection Hp as _ ->. right. by exists p.
Qed.

Lemma substr_app p s : JS.substr (String.length p) (p +:+ s) = s.
Proof. induction p; simpl; [by destruct s|done]. Qed.

Lemma span_word_stop w c r :
  JS.all_word w = true → JS.is_word_char c = false →
  JS.span_word (w +:+ String c r) = (w, String c r).
Proof.
  intros Hw Hc. induction w as [|a w IH]; simpl in *.
  - by rewrite Hc.
  - apply andb_prop in Hw as [Ha Hw]. by rewrite Ha, (IH Hw).
Qed.

End Strings.

(** A one-character literal in front of a string is a [String] cell. *)
Ltac cons_chars :=
  repeat match goal with
    | |- context [String.append (String ?c EmptyString) ?t] =>
        change (String.append (String c EmptyString) t) with (String c t)
    end.

(** ** The first two pieces of [resolved] *)

(** What [split("#")] and [split("#", 2)] give to the destructuring
    assignment, for a string with one ['#'] and for a string with more. *)
Lemma destructure2_first_hash (u tok : string) :
  JS.lacks "#" u = true →
  JS.lacks "#" tok = true →
  JS.destructure2 (JS.split "#" (u +:+ "#" +:+ tok)) = (u, Some tok) ∧
  JS.destructure2 (JS.split_limit "#" 2 (u +:+ "#" +:+ tok)) = (u, Some tok) ∧
  split_at_last (u +:+ "#" +:+ tok) = Some (u, tok) ∧
  ∀ more : string,
    JS.destructure2 (JS.split "#" (u +:+ "#" +:+ tok +:+ "#" +:+ more))
      = (u, Some tok) ∧
    JS.destructure2 (JS.split_limit "#" 2 (u +:+ "#" +:+ tok +:+ "#" +:+ more))
      = (u, Some tok).
Proof.
  intros Hu Ht. cons_chars.
  unfold JS.split_limit, JS.destructure2.
  rewrite (split_first _ u tok Hu), (split_lacks _ tok Ht).
  do 2 (split; [done|]). split; [by apply split_at_last_app|].
  intros more. cons_chars.
  by rewrite (split_first _ u _ Hu), (split_first _ tok _ Ht).
Qed.

(** ** C2: the rewritten [resolved] *)

(** C2.  On the entry of the specification's example the script does not
    store the url, ['#'] and the digest: it stores the text of the
    string literal, in which nothing is interpolated.  The same happens
    under [Promise.all], for the entry bound to the keys [a@^1.0.0] and
    [a@~1.0.0] of the example lockfile. *)
Theorem resolved_rewritten_to_literal :
  updateResolvedSha1 Example.getSha1 Example.getGitSha1
    (mkEntry (Some "https://example.com/a-1.0.0.tgz") None [])
  = Fulfilled (mkEntry (Some "${url}#${pkg_sha1}") None []) ∧
  (λ ke, (ke.1, resolved ke.2)) <$>
    entries Example.unhashed_obj
      (reconcile Example.getSha1 Example.getGitSha1 [0; 1; 2]
                 Example.unhashed_obj Example.unhashed_store).1
  = [("a@^1.0.0", Some "${url}#${pkg_sha1}");
     ("a@~1.0.0", Some "${url}#${pkg_sha1}");
     ("@scope/pkg@^1.0.0",
      Some "https://registry.yarnpkg.com/@scope/pkg/-/pkg-1.0.0.tgz#abc123")] ∧
  "${url}#${pkg_sha1}"
  ≠ "https://example.com/a-1.0.0.tgz" +:+ "#" +:+ Example.digest.
Proof. split; [reflexivity|split; [reflexivity|discriminate]]. Qed.

(** ** More on strings *)

Section Append.

Lemma append_cons c s t : String c s +:+ t = String c (s +:+ t).
Proof. reflexivity. Qed.

Lemma append_nil t : "" +:+ t = t.
Proof. reflexivity. Qed.

Lemma append_assoc s t u : (s +:+ t) +:+ u = s +:+ t +:+ u.
Proof.
  induction s as [|c s IH]; [done|].
  by rewrite !append_cons, IH.
Qed.

Lemma starts_with_spec p s : JS.starts_with p s = true ↔ ∃ x, s = p +:+ x.
Proof.
  revert s. induction p as [|a p IH]; intros s.
  - split; [intros _; by exists s|done].
  - destruct s as [|b s]; simpl.
    + split; [done|intros [x Hx]; discriminate].
    + rewrite andb_true_iff, Ascii.eqb_eq, IH. split.
      * intros [-> [x ->]]. by exists x.
      * intros [x Hx]. rewrite append_cons in Hx.
        injection Hx as -> ->. eauto.
Qed.

Lemma append_nonempty s c t : s +:+ String c t ≠ "".
Proof. by destruct s. Qed.

End Append.

(** ** The catalog builder *)

Section Builder.

Variable url_parse_pathname : string → option string.
Variable path_basename : string → string.

Local Abbreviation entry := (generateNix_entry url_parse_pathname path_basename).
Local Abbreviation loop := (generateNix_loop url_parse_pathname path_basename).
Local Abbreviation cands := (candidates url_parse_pathname path_basename).

(** What the loop body computes when it gets as far as a package. *)
Lemma generateNix_entry_Derived depRange dep p :
  entry depRange dep = Derived p ↔
  ∃ r pkg_url sha1 pathname,
    resolved dep = Some r ∧ r ≠ "" ∧
    JS.destructure2 (JS.split "#" r) = (pkg_url, sha1) ∧
    url_parse_pathname pkg_url = Some pathname ∧
    p = mkPackage
          (namespace_of depRange +:+
             match is_https_git pkg_url with
             | Some _ => path_basename pathname +:+ "-" +:+ JS.interp sha1
             | None => path_basename pathname
             end)
          match is_https_git pkg_url with
          | Some git_url =>
              fetchgitTarball (path_basename pathname) git_url
                              (JS.interp sha1) (JS.interp (sha256 dep))
          | None =>
              fetchurl (path_basename pathname) pkg_url (JS.interp sha1)
          end.
Proof.
  unfold generateNix_entry.
  destruct (resolved dep) as [[|c r]|] eqn:Hr.
  - split; [done|]. intros (r' & ? & ? & ? & [= <-] & ? & _). done.
  - destruct (JS.destructure2 _) as [pkg_url sha1] eqn:Hs.
    destruct (url_parse_pathname pkg_url) as [pathname|] eqn:Hp.
    + split.
      * intros [= <-]. by exists (String c r), pkg_url, sha1, pathname.
      * intros (r' & u' & s' & p' & [= <-] & _ & Hs' & Hp' & ->).
        rewrite Hs in Hs'. injection Hs' as <- <-.
        rewrite Hp in Hp'. by injection Hp' as <-.
    + split; [done|].
      intros (r' & u' & s' & p' & [= <-] & _ & Hs' & Hp' & _).
      rewrite Hs in Hs'. injection Hs' as <- <-. congruence.
  - split; [done|]. intros (r' & ? & ? & ? & [=] & _).
Qed.

(** The loop keeps the first candidate of every name. *)
Lemma generateNix_loop_first_wins found deps :
  loop found deps = (first_wins found (cands deps).1, (cands deps).2).
Proof.
  revert found.
  induction deps as [|[depRange dep] deps IH]; intros found; simpl; [done|].
  destruct (generateNix_entry _ _ depRange dep) as [| |p]; [done|done|].
  destruct (candidates _ _ deps) as [cs c] eqn:Hc. simpl in *.
  destruct (decide (name p ∈ found)); [done|].
  by rewrite IH.
Qed.

Lemma first_wins_unseen seen ps p :
  p ∈ first_wins seen ps → name p ∉ seen.
Proof.
  revert seen. induction ps as [|q ps IH]; intros seen; simpl.
  - by intros ?%elem_of_nil.
  - destruct (decide (name q ∈ seen)) as [|Hq]; [by apply IH|].
    intros [->|Hp%IH]%elem_of_cons; [done|set_solver].
Qed.

Lemma first_wins_NoDup seen ps : NoDup (name <$> first_wins seen ps).
Proof.
  revert seen. induction ps as [|q ps IH]; intros seen; simpl.
  - constructor.
  - destruct (decide (name q ∈ seen)); [by apply IH|].
    rewrite fmap_cons. constructor; [|by apply IH].
    intros (p & Hn & Hp%first_wins_unseen)%list_elem_of_fmap.
    set_solver.
Qed.

Lemma first_wins_sublist seen ps : first_wins seen ps `sublist_of` ps.
Proof.
  revert seen. induction ps as [|q ps IH]; intros seen; simpl.
  - constructor.
  - destruct (decide (name q ∈ seen)).
    + by apply sublist_cons.
    + by apply sublist_skip.
Qed.

Lemma first_wins_keeps seen l1 p l2 :
  name p ∉ seen → name p ∉ name <$> l1 →
  p ∈ first_wins seen (l1 ++ p :: l2).
Proof.
  revert seen. induction l1 as [|q l1 IH]; intros seen Hs Hl; simpl.
  - rewrite decide_False by done. by left.
  - rewrite fmap_cons, not_elem_of_cons in Hl. destruct Hl as [Hq Hl].
    destruct (decide (name q ∈ seen)); [by apply IH|].
    right. apply IH; [|done].
    rewrite not_elem_of_union, not_elem_of_singleton. by split.
Qed.

Lemma first_wins_first seen ps p :
  p ∈ first_wins seen ps →
  ∃ l1 l2, ps = l1 ++ p :: l2 ∧ name p ∉ name <$> l1.
Proof.
  revert seen. induction ps as [|q ps IH]; intros seen; simpl.
  - by intros ?%elem_of_nil.
  - destruct (decide (name q ∈ seen)) as [Hq|Hq].
    + intros Hp. destruct (IH _ Hp) as (l1 & l2 & -> & Hl).
      exists (q :: l1), l2. split; [done|].
      rewrite fmap_cons, not_elem_of_cons. split; [|done].
      apply first_wins_unseen in Hp. congruence.
    + intros [->|Hp]%elem_of_cons.
      * exists [], ps. split; [done|]. by intros ?%elem_of_nil.
      * destruct (IH _ Hp) as (l1 & l2 & -> & Hl).
        exists (q :: l1), l2. split; [done|].
        rewrite fmap_cons, not_elem_of_cons. split; [|done].
        apply first_wins_unseen in Hp. set_solver.
Qed.


(** The namespace of a key that starts with ['@'], word characters and
    a ['/']. *)
Lemma namespace_of_scoped w rest :
  w ≠ "" → JS.all_word w = true →
  namespace_of ("@" +:+ w +:+ "/" +:+ rest) = "@" +:+ w +:+ "-".
Proof.
  intros Hw Ha.
  change ("@" +:+ w +:+ "/" +:+ rest) with (String "@" (w +:+ String "/" rest)).
  unfold namespace_of, namespaceMatch.
  rewrite span_word_stop by done.
  destruct w as [|c w]; [done|]. reflexivity.
Qed.

(** The two patterns of [is_https_git]. *)
Lemma is_https_git_matches url :
  JS.starts_with "git+https://" url = true ∨ JS.ends_with ".git" url = true →
  is_https_git url =
    Some (if JS.starts_with "git+https://" url then JS.substr 4 url else url).
Proof.
  unfold is_https_git.
  destruct (JS.starts_with "git+https://" url); [done|].
  by intros [?| ->].
Qed.

(** The loop prints the package of an entry whose name is new. *)
Lemma generateNix_loop_prints found depRange dep deps p :
  entry depRange dep = Derived p → name p ∉ found →
  ∃ ps c, loop found ((depRange, dep) :: deps) = (p :: ps, c).
Proof.
  intros He Hp. simpl. rewrite He, decide_False by done.
  destruct (generateNix_loop _ _ _ deps) as [ps c]. by exists ps, c.
Qed.

(** C4, as amended.  When the key of an entry is an ['@'], one or more
    word characters (letters, digits or underscores) and a ['/'], the
    name of the package derived from the entry, which is the name the
    loop prints for it, starts with the ['@'], those characters and a
    ['-'].  For the key [@scope/pkg@^1.0.0] and a plain URL whose file
    name is [pkg-1.0.0.tgz] the name is [@scope-pkg-1.0.0.tgz]. *)
Theorem scoped_key_prefixes_file_name
        (depRange : string) (dep : LockEntry) (p : package) :
  entry depRange dep = Derived p →
  (∀ w rest : string,
      depRange = "@" +:+ w +:+ "/" +:+ rest →
      w ≠ "" → JS.all_word w = true →
      ∃ cache_file_name, name p = "@" +:+ w +:+ "-" +:+ cache_file_name) ∧
  (∀ url pathname : string,
      depRange = "@scope/pkg@^1.0.0" →
      resolved dep = Some (url +:+ "#" +:+ "abc123") →
      JS.lacks "#" url = true →
      is_https_git url = None →
      url_parse_pathname url = Some pathname →
      path_basename pathname = "pkg-1.0.0.tgz" →
      name p = "@scope-pkg-1.0.0.tgz").
Proof.
  intros (r & pkg_url & sha1 & pathname & Hr & _ & Hs & Hp & ->)
    %generateNix_entry_Derived.
  split.
  - intros w rest -> Hw Ha. simpl.
    rewrite (namespace_of_scoped w rest Hw Ha), !append_assoc. eauto.
  - intros url pathname' -> Hr' Hu Hg Hp' Hb. simpl.
    rewrite Hr in Hr'. injection Hr' as ->.
    revert Hs. cons_chars. unfold JS.destructure2.
    rewrite (split_first _ url _ Hu). simpl. intros [= <- <-].
    rewrite Hg. rewrite Hp in Hp'. injection Hp' as ->.
    by rewrite Hb.
Qed.

(** C6, as amended.  When the url part of [resolved] starts with
    [git+https://] or ends with [.git], the package derived from the
    entry is a [fetchgitTarball] whose revision is the token and whose
    [sha256] is the entry's; its url is the url part without its first
    four characters when that part starts with [git+https://], and the
    url part unchanged otherwise. *)
Theorem source_control_entry_descriptor
        (depRange : string) (dep : LockEntry) (p : package)
        (r url tok : string) (more : list string) :
  resolved dep = Some r →
  JS.split "#" r = (url, tok :: more) →
  JS.starts_with "git+https://" url = true ∨ JS.ends_with ".git" url = true →
  entry depRange dep = Derived p →
  ∃ file_name repo,
    path p = fetchgitTarball file_name repo tok (JS.interp (sha256 dep)) ∧
    (∀ x, url = "git+https://" +:+ x → repo = "https://" +:+ x) ∧
    (JS.starts_with "git+https://" url = false → repo = url).
Proof.
  intros Hr Hs Hm
    (r' & pkg_url & sha1 & pathname & Hr' & _ & Hs' & Hp & ->)
    %generateNix_entry_Derived.
  rewrite Hr in Hr'. injection Hr' as <-.
  unfold JS.destructure2 in Hs'. rewrite Hs in Hs'. simpl in Hs'.
  injection Hs' as <- <-.
  rewrite (is_https_git_matches url Hm).
  exists (path_basename pathname),
    (if JS.starts_with "git+https://" url then JS.substr 4 url else url).
  split; [reflexivity|]. split.
  - intros x ->. reflexivity.
  - intros Hn. by rewrite Hn.
Qed.

(** C10, as amended.  When the loop reaches an entry whose url part matches the
    source-control pattern, which has a token and no [sha256] field,
    and whose name has not been printed yet, the next package it
    prints is the [fetchgitTarball] of that entry, with the text
    [undefined] as its [sha256]. *)
Theorem missing_sha256_prints_undefined
        (found : gset string) (depRange : string) (dep : LockEntry)
        (deps : list (string * LockEntry))
        (r url tok pathname : string) (more : list string) :
  resolved dep = Some r →
  JS.split "#" r = (url, tok :: more) →
  JS.starts_with "git+https://" url = true ∨ JS.ends_with ".git" url = true →
  sha256 dep = None →
  url_parse_pathname url = Some pathname →
  namespace_of depRange +:+ path_basename pathname +:+ "-" +:+ tok ∉ found →
  ∃ repo ps c,
    is_https_git url = Some repo ∧
    loop found ((depRange, dep) :: deps) =
      (mkPackage
         (namespace_of depRange +:+ path_basename pathname +:+ "-" +:+ tok)
         (fetchgitTarball (path_basename pathname) repo tok "undefined")
         :: ps, c).
Proof.
  intros Hr Hs Hm Hsha Hp Hnew.
  pose proof (is_https_git_matches url Hm) as Hg.
  eexists _. 
  assert (entry depRange dep = Derived
            (mkPackage
               (namespace_of depRange +:+ path_basename pathname +:+ "-" +:+ tok)
               (fetchgitTarball (path_basename pathname)
                  (if JS.starts_with "git+https://" url
                   then JS.substr 4 url else url) tok "undefined")))
    as He.
  { apply generateNix_entry_Derived.
    exists r, url, (Some tok), pathname.
    split; [done|]. split; [by intros ->|].
    split; [by unfold JS.destructure2; rewrite Hs|].
    split; [done|]. by rewrite Hg, Hsha. }
  destruct (generateNix_loop_prints found depRange dep deps _ He Hnew)
    as (ps & c & Hl).
  by exists ps, c.
Qed.

End Builder.

(** C4, as stated, fails: the key [@my-scope/pkg@^1.0.0] starts with a
    scope and a ['/'], and the name derived for its entry has no prefix,
    because ['-'] is not a word character. *)
Lemma hyphenated_scope_gets_no_prefix :
  generateNix_entry Node.pathname Node.basename "@my-scope/pkg@^1.0.0"
                    Example.hyphenated
  = Derived
      (mkPackage "pkg-1.0.0.tgz"
         (fetchurl "pkg-1.0.0.tgz"
            "https://registry.yarnpkg.com/@my-scope/pkg/-/pkg-1.0.0.tgz"
            "abc123")) ∧
  JS.starts_with "@my-scope-" "pkg-1.0.0.tgz" = false.
Proof. split; reflexivity. Qed.

(** C6, as stated, fails: the url part [git+ssh://git@example.com/repo.git]
    ends with [.git], and the package derived from the entry carries it
    with its [git+] prefix. *)
Lemma git_plus_ssh_keeps_prefix :
  JS.ends_with ".git" "git+ssh://git@example.com/repo.git" = true ∧
  generateNix_entry Node.pathname Node.basename "repo@^0.1.0" Example.git_ssh
  = Derived
      (mkPackage "repo.git-deadbeef"
         (fetchgitTarball "repo.git" "git+ssh://git@example.com/repo.git"
            "deadbeef" Example.nix_hash)) ∧
  "git+ssh://git@example.com/repo.git"
  ≠ strip_git_plus "git+ssh://git@example.com/repo.git".
Proof. split; [reflexivity|split; [reflexivity|discriminate]]. Qed.

(** ** The reconciler and the main program *)

Section Reconciler.

Variable url_parse_pathname : string → option string.
Variable path_basename : string → string.
Variable getSha1 : string → settled string.
Variable getGitSha1 : string → string → settled string.
Variable lockfile_parse : string → option (lockobj * store).
Variable lockfile_stringify : list (string * LockEntry) → string.

Local Abbreviation resume := (updateResolvedSha1_resume getSha1 getGitSha1).
Local Abbreviation fails := (lookup_fails getSha1 getGitSha1).
Local Abbreviation run :=
  (main url_parse_pathname path_basename getSha1 getGitSha1
        lockfile_parse lockfile_stringify).

(** *** One call *)

Lemma destructure2_split_limit c s :
  JS.destructure2 (JS.split_limit c 2 s) = JS.destructure2 (JS.split c s).
Proof.
  unfold JS.split_limit, JS.destructure2.
  destruct (JS.split c s) as [p [|q ps]]; reflexivity.
Qed.

Lemma start_without_resolved pkg :
  JS.truthy (resolved pkg) = false → updateResolvedSha1_start pkg = Returned.
Proof.
  unfold updateResolvedSha1_start.
  by destruct (resolved pkg) as [[|c r]|].
Qed.

Lemma resume_others p pkg pkg' :
  resume p pkg = Fulfilled pkg' → others pkg' = others pkg.
Proof.
  destruct p as [|url|git_url rev]; simpl.
  - by intros [= <-].
  - destruct (getSha1 url); [by intros [= <-]|done].
  - destruct (getGitSha1 git_url rev); [by intros [= <-]|done].
Qed.

Lemma resume_rejects p pkg :
  fails p = true ↔ ∃ e, resume p pkg = Rejected e.
Proof.
  destruct p as [|url|git_url rev]; simpl.
  - split; [done|by intros [e ?]].
  - destruct (getSha1 url); split; eauto; try done. by intros [? ?].
  - destruct (getGitSha1 git_url rev); split; eauto; try done.
    by intros [? ?].
Qed.

(** A call on an entry whose [resolved] has no token stores the literal,
    whatever the url and the digest are. *)
Lemma updateResolvedSha1_without_token pkg url pkg_sha1 :
  resolved pkg = Some url → url ≠ "" → JS.lacks "#" url = true →
  getSha1 url = Fulfilled pkg_sha1 →
  updateResolvedSha1 getSha1 getGitSha1 pkg
  = Fulfilled (mkEntry (Some resolved_literal) (sha256 pkg) (others pkg)).
Proof.
  intros Hr Hne Hu Hg.
  unfold updateResolvedSha1, updateResolvedSha1_start. rewrite Hr.
  destruct url as [|c url]; [done|].
  rewrite destructure2_split_limit. unfold JS.destructure2.
  rewrite (split_lacks _ _ Hu). simpl. by rewrite Hg.
Qed.

(** A call on an entry that carries its hashes returns at once, or asks
    [nix-prefetch-git] for the hash the entry already has. *)
Lemma start_fully_hashed pkg :
  fully_hashed getGitSha1 pkg = true →
  updateResolvedSha1_start pkg = Returned ∨
  ∃ git_url rev h,
    updateResolvedSha1_start pkg = AwaitGitSha1 git_url rev ∧
    getGitSha1 git_url rev = Fulfilled h ∧ sha256 pkg = Some h.
Proof.
  unfold fully_hashed, updateResolvedSha1_start.
  destruct (resolved pkg) as [[|c r]|]; [by left| |by left].
  rewrite destructure2_split_limit. unfold JS.destructure2.
  destruct (JS.split "#" (String c r)) as [url [|tok rest]]; [done|].
  simpl. destruct tok as [|a tok]; [done|]. simpl.
  destruct (is_https_git url) as [git_url|]; [|by left].
  destruct (getGitSha1 git_url (String a tok)) as [h|e] eqn:Hg; [|done].
  intros Hs%bool_decide_eq_true. right. by exists git_url, (String a tok), h.
Qed.

(** *** All calls *)

Lemma start_all_lookup pkgs h i r p :
  start_all pkgs h !! i = Some (r, p) →
  pkgs !! i = Some r ∧ p = updateResolvedSha1_start (h r).
Proof.
  unfold start_all. rewrite list_lookup_fmap.
  destruct (pkgs !! i) as [r'|]; simpl; [|done].
  by intros [= <- <-].
Qed.

(** A property of the store that every assignment of a resumed call
    preserves holds when [Promise.all] settles. *)
Lemma Promise_all_invariant (P : store → Prop) sched tasks h :
  P h →
  (∀ h i r p pkg',
      P h → tasks !! i = Some (r, p) →
      resume p (h r) = Fulfilled pkg' → P (<[r := pkg']> h)) →
  P (Promise_all getSha1 getGitSha1 sched tasks h).1.
Proof.
  intros Hh Hstep. revert h Hh.
  induction sched as [|i sched IH]; intros h Hh; simpl; [done|].
  destruct (tasks !! i) as [[r p]|] eqn:Hi; [|by apply IH].
  destruct (resume p (h r)) as [pkg'|e] eqn:Hr; [|done].
  apply IH. by eapply Hstep.
Qed.

(** [Promise.all] is fulfilled when no lookup fails. *)
Lemma Promise_all_fulfilled sched tasks h :
  (∀ i r p, tasks !! i = Some (r, p) → fails p = false) →
  (Promise_all getSha1 getGitSha1 sched tasks h).2 = None.
Proof.
  intros Hok. revert h.
  induction sched as [|i sched IH]; intros h; simpl; [done|].
  destruct (tasks !! i) as [[r p]|] eqn:Hi; [|by apply IH].
  destruct (resume p (h r)) as [pkg'|e] eqn:Hr; [by apply IH|].
  assert (fails p = true) as Hf by (apply (resume_rejects p (h r)); eauto).
  by rewrite (Hok i r p Hi) in Hf.
Qed.

(** [Promise.all] is rejected when a call whose lookup fails is among
    those that settle. *)
Lemma Promise_all_rejected sched tasks h i r p :
  i ∈ sched → tasks !! i = Some (r, p) → fails p = true →
  ∃ e, (Promise_all getSha1 getGitSha1 sched tasks h).2 = Some e.
Proof.
  intros Hin Hi Hf. revert h.
  induction sched as [|j sched IH]; intros h; simpl.
  - by apply elem_of_nil in Hin.
  - destruct (tasks !! j) as [[r' p']|] eqn:Hj.
    + destruct (resume p' (h r')) as [pkg'|e] eqn:Hr; [|by exists e].
      apply elem_of_cons in Hin as [->|Hin]; [|by apply IH].
      rewrite Hi in Hj. injection Hj as <- <-.
      apply (resume_rejects p (h r)) in Hf as [e He]. congruence.
    + apply elem_of_cons in Hin as [->|Hin]; [congruence|by apply IH].
Qed.

(** *** What the process leaves behind *)

Lemma emit_nix_no_write opts obj h :
  Forall (λ e, is_write e = false)
         (emit_nix url_parse_pathname path_basename opts obj h).
Proof.
  unfold emit_nix. destruct (opt_no_nix opts); [by repeat constructor|].
  destruct (generateNix _ _ _) as [lines []];
    (apply Forall_app; split; [|by repeat constructor]);
    by apply Forall_fmap, Forall_true.
Qed.

Lemma disk_after_no_write file before t :
  Forall (λ e, is_write e = false) t → disk_after file before t = before.
Proof.
  induction 1 as [|e t He _ IH]; simpl; [done|].
  by destruct e.
Qed.

Lemma entries_ext obj (h h' : store) :
  (∀ r, h r = h' r) → entries obj h = entries obj h'.
Proof.
  intros Hext. unfold entries. apply list_fmap_ext.
  intros i [key r] _. simpl. by rewrite Hext.
Qed.

(** C9.  Whatever the order in which the lookups answer, and whether
    or not one of them fails, the lockfile after reconciliation has
    the keys of the lockfile before it, in the same order; every entry
    keeps all its fields other than [resolved] and [sha256]; and an
    entry without a [resolved] field is unchanged. *)
Theorem reconcile_frame (sched : list nat) (obj : lockobj) (orig : store) :
  Forall2
    (λ before after : string * LockEntry,
        after.1 = before.1 ∧
        others after.2 = others before.2 ∧
        (resolved before.2 = None → after.2 = before.2))
    (entries obj orig)
    (entries obj (reconcile getSha1 getGitSha1 sched obj orig).1).
Proof.
  unfold reconcile, entries.
  apply Forall2_fmap, Forall_Forall2_diag, Forall_forall.
  intros [key r] _. simpl. split; [done|]. revert r.
  apply (Promise_all_invariant
           (λ h, ∀ r, others (h r) = others (orig r) ∧
                      (resolved (orig r) = None → h r = orig r))).
  { done. }
  intros h i r p pkg' Hh [_ ->]%start_all_lookup Hr r'.
  destruct (decide (r = r')) as [<-|Hne].
  - rewrite fn_lookup_insert. destruct (Hh r) as [Ho Hn]. split.
    + by rewrite (resume_others _ _ _ Hr).
    + intros Hnone. rewrite start_without_resolved in Hr
        by (by rewrite Hnone).
      injection Hr as <-. by apply Hn.
  - by rewrite fn_lookup_insert_ne.
Qed.

(** C5.  When every entry of the lockfile carries its hashes (a token
    that is not empty and, for a source-control url, a [sha256] field
    equal to the answer of [nix-prefetch-git] for that revision),
    reconciliation succeeds, the lockfile after it equals the lockfile
    before it, [equal] says so, and the run does not write the file. *)
Theorem reconcile_fully_hashed_unchanged
        (opts : options) (data : string) (sched : list nat)
        (obj : lockobj) (orig : store) :
  lockfile_parse data = Some (obj, orig) →
  Forall (λ kr, fully_hashed getGitSha1 (orig kr.2) = true) obj →
  ∃ h,
    reconcile getSha1 getGitSha1 sched obj orig = (h, None) ∧
    entries obj h = entries obj orig ∧
    equal obj orig h = true ∧
    Forall (λ e, is_write e = false) (run opts data sched) ∧
    disk_after (opt_lockfile opts) data (run opts data sched) = data.
Proof.
  intros Hparse Hall.
  assert (∀ i r p, start_all (values obj) orig !! i = Some (r, p) →
                   fully_hashed getGitSha1 (orig r) = true ∧
                   p = updateResolvedSha1_start (orig r)) as Htask.
  { intros i r p [Hi ->]%start_all_lookup. split; [|done].
    unfold values in Hi. rewrite list_lookup_fmap in Hi.
    destruct (obj !! i) as [[key r']|] eqn:Ho; simplify_eq/=.
    by apply (Forall_lookup_1 _ _ _ _ Hall Ho). }
  destruct (reconcile getSha1 getGitSha1 sched obj orig) as [h st] eqn:Hrec.
  assert (∀ r, h r = orig r) as Hsame.
  { change h with (h, st).1. rewrite <-Hrec. unfold reconcile.
    apply (Promise_all_invariant (λ h, ∀ r, h r = orig r)); [done|].
    intros h' i r p pkg' Hh' [Hfull ->]%Htask Hr r'.
    destruct (decide (r = r')) as [<-|Hne];
      [|by rewrite fn_lookup_insert_ne].
    rewrite fn_lookup_insert.
    destruct (start_fully_hashed _ Hfull)
      as [Hs|(git_url & rev & hh & Hs & Hg & Hsha)];
      rewrite Hs in Hr; simpl in Hr.
    - injection Hr as <-. apply Hh'.
    - rewrite Hg in Hr. injection Hr as <-.
      rewrite Hh', <-Hsha. by destruct (orig r). }
  assert (st = None) as ->.
  { change st with (h, st).2. rewrite <-Hrec. unfold reconcile.
    apply Promise_all_fulfilled. intros i r p [Hfull ->]%Htask.
    destruct (start_fully_hashed _ Hfull)
      as [Hs|(git_url & rev & hh & Hs & Hg & Hsha)];
      rewrite Hs; simpl; [done|by rewrite Hg]. }
  pose proof (entries_ext obj h orig Hsame) as Hent.
  assert (equal obj orig h = true) as Heq
      by (by apply bool_decide_eq_true).
  assert (Forall (λ e, is_write e = false) (run opts data sched)) as Hw.
  { unfold main. rewrite Hparse, Hrec, Heq. simpl.
    apply emit_nix_no_write. }
  exists h. repeat split; try done.
  by apply disk_after_no_write.
Qed.

(** C7.  Under [--no-patch], when the lockfile after reconciliation
    differs from the lockfile as parsed, the run ends with status 1,
    writes no file, and leaves the content of the lockfile as it was. *)
Theorem no_patch_keeps_lockfile
        (opts : options) (data : string) (sched : list nat)
        (obj : lockobj) (orig : store) :
  opt_no_patch opts = true →
  lockfile_parse data = Some (obj, orig) →
  entries obj (reconcile getSha1 getGitSha1 sched obj orig).1
    ≠ entries obj orig →
  exit_code (run opts data sched) = Some 1 ∧
  Forall (λ e, is_write e = false) (run opts data sched) ∧
  disk_after (opt_lockfile opts) data (run opts data sched) = data.
Proof.
  intros Hnp Hparse Hdiff.
  assert (exit_code (run opts data sched) = Some 1 ∧
          Forall (λ e, is_write e = false) (run opts data sched))
    as [Hexit Hw].
  { unfold main. rewrite Hparse.
    destruct (reconcile getSha1 getGitSha1 sched obj orig) as [h [e|]];
      simpl in *.
    - split; [done|by repeat constructor].
    - unfold equal. rewrite bool_decide_eq_false_2 by done. simpl.
      rewrite Hnp. split; [done|by repeat constructor]. }
  repeat split; try done. by apply disk_after_no_write.
Qed.

(** C8.  When the lookup of some entry fails, the run ends with status
    1, prints nothing on the standard output and writes no file,
    whatever the order in which the lookups answer.  A run that prints
    a line on the standard output is one in which no lookup failed. *)
Theorem failed_lookup_aborts
        (opts : options) (data : string) (sched : list nat)
        (obj : lockobj) (orig : store) :
  lockfile_parse data = Some (obj, orig) →
  sched ≡ₚ seq 0 (length obj) →
  ((∃ key r, (key, r) ∈ obj ∧
             fails (updateResolvedSha1_start (orig r)) = true) →
   exit_code (run opts data sched) = Some 1 ∧
   Forall (λ e, is_stdout e = false) (run opts data sched) ∧
   Forall (λ e, is_write e = false) (run opts data sched)) ∧
  ((∃ line, Stdout line ∈ run opts data sched) →
   ∀ key r, (key, r) ∈ obj →
            fails (updateResolvedSha1_start (orig r)) = false).
Proof.
  intros Hparse Hperm.
  assert ((∃ key r, (key, r) ∈ obj ∧
                    fails (updateResolvedSha1_start (orig r)) = true) →
          ∃ e, run opts data sched = [Stderr e; Exit 1]) as Hfail.
  { intros (key & r & [i Hi]%list_elem_of_lookup & Hf).
    assert (i ∈ sched) as Hin.
    { rewrite Hperm. apply elem_of_seq.
      apply lookup_lt_Some in Hi. lia. }
    assert (start_all (values obj) orig !! i
            = Some (r, updateResolvedSha1_start (orig r))) as Ht.
    { unfold start_all, values. by rewrite !list_lookup_fmap, Hi. }
    destruct (Promise_all_rejected sched _ orig i r _ Hin Ht Hf) as [e He].
    exists e. unfold main. rewrite Hparse. unfold reconcile.
    destruct (Promise_all _ _ _ _ _) as [h st]. simpl in He.
    by rewrite He. }
  split.
  - intros [e ->]%Hfail. split; [done|]. split; by repeat constructor.
  - intros [line Hline] key r Hkr.
    destruct (fails (updateResolvedSha1_start (orig r))) eqn:Hf; [|done].
    destruct Hfail as [e He]; [by exists key, r|].
    rewrite He in Hline.
    apply elem_of_cons in Hline as [?|Hline]; [done|].
    apply elem_of_cons in Hline as [?|Hline]; [done|].
    by apply elem_of_nil in Hline.
Qed.

End Reconciler.

(** ** The theorems on the example lockfiles *)


Lemma scoped_key_prefixes_file_name_witness :
  let p :=
    mkPackage "@scope-pkg-1.0.0.tgz"
      (fetchurl "pkg-1.0.0.tgz"
         "https://registry.yarnpkg.com/@scope/pkg/-/pkg-1.0.0.tgz" "abc123") in
  generateNix_entry Node.pathname Node.basename "@scope/pkg@^1.0.0"
                    Example.scoped = Derived p ∧
  (∃ cache_file_name, name p = "@" +:+ "scope" +:+ "-" +:+ cache_file_name) ∧
  name p = "@scope-pkg-1.0.0.tgz".
Proof.
  intros p.
  assert (generateNix_entry Node.pathname Node.basename "@scope/pkg@^1.0.0"
                            Example.scoped = Derived p) as He
      by reflexivity.
  destruct (scoped_key_prefixes_file_name
              Node.pathname Node.basename _ _ _ He) as [H1 H2].
  split; [exact He|]. split.
  - apply (H1 "scope" "pkg@^1.0.0"); [reflexivity|discriminate|reflexivity].
  - apply (H2 "https://registry.yarnpkg.com/@scope/pkg/-/pkg-1.0.0.tgz"
              "/@scope/pkg/-/pkg-1.0.0.tgz"); reflexivity.
Defined.

Lemma source_control_entry_descriptor_witness :
  ∃ file_name repo,
    path (mkPackage "repo.git-deadbeef"
            (fetchgitTarball "repo.git" "https://example.com/repo.git"
               "deadbeef" Example.nix_hash))
    = fetchgitTarball file_name repo "deadbeef" Example.nix_hash ∧
    (∀ x, "git+https://example.com/repo.git" = "git+https://" +:+ x →
          repo = "https://" +:+ x) ∧
    (JS.starts_with "git+https://" "git+https://example.com/repo.git" = false →
     repo = "git+https://example.com/repo.git").
Proof.
  apply (source_control_entry_descriptor
           Node.pathname Node.basename "repo@^0.1.0" Example.git _
           "git+https://example.com/repo.git#deadbeef"
           "git+https://example.com/repo.git" "deadbeef" []);
    [reflexivity|reflexivity|left; reflexivity|reflexivity].
Defined.

Lemma missing_sha256_prints_undefined_witness :
  ∃ repo ps c,
    is_https_git "git+https://example.com/repo.git" = Some repo ∧
    generateNix_loop Node.pathname Node.basename ∅
                     [("repo@^0.1.0", Example.git_unhashed)]
    = (mkPackage
         (namespace_of "repo@^0.1.0" +:+ Node.basename "/repo.git" +:+ "-"
            +:+ "deadbeef")
         (fetchgitTarball (Node.basename "/repo.git") repo "deadbeef"
            "undefined") :: ps, c).
Proof.
  apply (missing_sha256_prints_undefined
           Node.pathname Node.basename ∅ "repo@^0.1.0" Example.git_unhashed []
           "git+https://example.com/repo.git#deadbeef"
           "git+https://example.com/repo.git" "deadbeef" "/repo.git" []);
    [reflexivity|reflexivity|left; reflexivity|reflexivity|reflexivity|].
  apply not_elem_of_empty.
Defined.

Lemma reconcile_frame_witness :
  Forall2
    (λ before after : string * LockEntry,
        after.1 = before.1 ∧
        others after.2 = others before.2 ∧
        (resolved before.2 = None → after.2 = before.2))
    (entries Example.unhashed_obj Example.unhashed_store)
    (entries Example.unhashed_obj
       (reconcile Example.getSha1 Example.getGitSha1 [2; 0; 1]
                  Example.unhashed_obj Example.unhashed_store).1).
Proof.
  exact (reconcile_frame Example.getSha1 Example.getGitSha1 [2; 0; 1]
                         Example.unhashed_obj Example.unhashed_store).
Defined.

Lemma reconcile_fully_hashed_unchanged_witness :
  ∃ h,
    reconcile Example.getSha1 Example.getGitSha1 [3; 1; 0; 2]
              Example.hashed_obj Example.hashed_store = (h, None) ∧
    entries Example.hashed_obj h
    = entries Example.hashed_obj Example.hashed_store ∧
    equal Example.hashed_obj Example.hashed_store h = true ∧
    Forall (λ e, is_write e = false)
      (main Node.pathname Node.basename Example.getSha1 Example.getGitSha1
            (Example.parse (Example.hashed_obj, Example.hashed_store))
            Example.stringify (Example.opts false false) "" [3; 1; 0; 2]) ∧
    disk_after "./yarn.lock" ""
      (main Node.pathname Node.basename Example.getSha1 Example.getGitSha1
            (Example.parse (Example.hashed_obj, Example.hashed_store))
            Example.stringify (Example.opts false false) "" [3; 1; 0; 2])
    = "".
Proof.
  apply (reconcile_fully_hashed_unchanged
           Node.pathname Node.basename Example.getSha1 Example.getGitSha1
           (Example.parse (Example.hashed_obj, Example.hashed_store))
           Example.stringify (Example.opts false false) "" [3; 1; 0; 2]
           Example.hashed_obj Example.hashed_store);
    [reflexivity|].
  repeat (apply Forall_cons; split; [reflexivity|]). apply Forall_nil_2.
Defined.

Lemma no_patch_keeps_lockfile_witness :
  let t :=
    main Node.pathname Node.basename Example.getSha1 Example.getGitSha1
         (Example.parse (Example.unhashed_obj, Example.unhashed_store))
         Example.stringify (Example.opts false true) "a@^1.0.0:" [1; 2; 0] in
  exit_code t = Some 1 ∧
  Forall (λ e, is_write e = false) t ∧
  disk_after "./yarn.lock" "a@^1.0.0:" t = "a@^1.0.0:".
Proof.
  apply (no_patch_keeps_lockfile
           Node.pathname Node.basename Example.getSha1 Example.getGitSha1
           (Example.parse (Example.unhashed_obj, Example.unhashed_store))
           Example.stringify (Example.opts false true) "a@^1.0.0:" [1; 2; 0]
           Example.unhashed_obj Example.unhashed_store);
    [reflexivity|reflexivity|].
  vm_compute. discriminate.
Defined.

Lemma failed_lookup_aborts_witness :
  let t :=
    main Node.pathname Node.basename Example.getSha1_down Example.getGitSha1
         (Example.parse (Example.unhashed_obj, Example.unhashed_store))
         Example.stringify (Example.opts false false) "a@^1.0.0:" [0; 1; 2] in
  exit_code t = Some 1 ∧
  Forall (λ e, is_stdout e = false) t ∧
  Forall (λ e, is_write e = false) t.
Proof.
  apply (failed_lookup_aborts
           Node.pathname Node.basename Example.getSha1_down Example.getGitSha1
           (Example.parse (Example.unhashed_obj, Example.unhashed_store))
           Example.stringify (Example.opts false false) "a@^1.0.0:" [0; 1; 2]
           Example.unhashed_obj Example.unhashed_store);
    [reflexivity|reflexivity|].
  exists "a@^1.0.0", 0. split; [|reflexivity].
  apply list_elem_of_here.
Defined.

(** * Further properties of the catalog builder *)

Section BuilderMore.

Variable url_parse_pathname : string → option string.
Variable path_basename : string → string.

Local Abbreviation entry := (generateNix_entry url_parse_pathname path_basename).
Local Abbreviation loop := (generateNix_loop url_parse_pathname path_basename).
Local Abbreviation gen := (generateNix url_parse_pathname path_basename).
Local Abbreviation printed := (packages url_parse_pathname path_basename).

Lemma generateNix_entry_Skipped depRange dep :
  JS.truthy (resolved dep) = false → entry depRange dep = Skipped.
Proof.
  unfold generateNix_entry. by destruct (resolved dep) as [[|c r]|].
Qed.

Lemma truthy_Some r : JS.truthy (Some r) = true ↔ r ≠ "".
Proof. destruct r; simpl; split; done. Qed.

(** The package of an entry with a source-control url. *)
Lemma generateNix_entry_git depRange dep r url tok more pathname :
  resolved dep = Some r →
  JS.split "#" r = (url, tok :: more) →
  JS.starts_with "git+https://" url = true ∨ JS.ends_with ".git" url = true →
  url_parse_pathname url = Some pathname →
  entry depRange dep =
    Derived
      (mkPackage
         (namespace_of depRange +:+ path_basename pathname +:+ "-" +:+ tok)
         (fetchgitTarball (path_basename pathname)
            (if JS.starts_with "git+https://" url
             then JS.substr 4 url else url)
            tok (JS.interp (sha256 dep)))).
Proof.
  intros Hr Hs Hm Hp. apply generateNix_entry_Derived.
  exists r, url, (Some tok), pathname.
  split; [done|]. split; [by intros ->|].
  split; [by unfold JS.destructure2; rewrite Hs|].
  split; [done|]. by rewrite (is_https_git_matches url Hm).
Qed.

(** The package of an entry with any other url. *)
Lemma generateNix_entry_plain depRange dep r url rest pathname :
  resolved dep = Some r → r ≠ "" →
  JS.split "#" r = (url, rest) →
  is_https_git url = None →
  url_parse_pathname url = Some pathname →
  entry depRange dep =
    Derived
      (mkPackage
         (namespace_of depRange +:+ path_basename pathname)
         (fetchurl (path_basename pathname) url (JS.interp (head rest)))).
Proof.
  intros Hr Hne Hs Hg Hp. apply generateNix_entry_Derived.
  exists r, url, (head rest), pathname.
  split; [done|]. split; [done|].
  split; [by unfold JS.destructure2; rewrite Hs|].
  split; [done|]. by rewrite Hg.
Qed.

Lemma generateNix_loop_skips found deps :
  loop found (filter (λ kd, JS.truthy (resolved kd.2) = true) deps)
  = loop found deps.
Proof.
  revert found. induction deps as [|[depRange dep] deps IH]; intros found.
  { done. }
  rewrite filter_cons. simpl.
  destruct (decide (JS.truthy (resolved dep) = true)) as [Ht|Ht]; simpl.
  - destruct (entry depRange dep) as [| |p]; [by apply IH|done|].
    destruct (decide (name p ∈ found)); [by apply IH|by rewrite IH].
  - rewrite generateNix_entry_Skipped by (by destruct (JS.truthy _)).
    apply IH.
Qed.

(** X1.  An entry without a [resolved] field, or with an empty one,
    leaves no trace in what is printed: the output is the output for the
    lockfile without these entries.  When no entry has a [resolved]
    field, and so for the empty lockfile, the output is the header and
    the two closing lines. *)
Theorem generateNix_skips_unresolved (deps : list (string * LockEntry)) :
  gen (filter (λ kd, JS.truthy (resolved kd.2) = true) deps) = gen deps ∧
  (Forall (λ kd, JS.truthy (resolved kd.2) = false) deps →
   gen deps = ([HEAD; "  ];"; "}"], Normal)).
Proof.
  split.
  - unfold generateNix. by rewrite generateNix_loop_skips.
  - intros Hall. unfold generateNix.
    assert (loop ∅ deps = ([], Normal)) as ->; [|done].
    induction Hall as [|[depRange dep] deps Hd _ IH]; simpl; [done|].
    by rewrite generateNix_entry_Skipped.
Qed.

(** X2.  An entry whose url part neither starts with [git+https://] nor
    ends with [.git] is printed as a [fetchurl] of the url part, under
    the file name of that url prefixed by the namespace of the key; its
    [sha1] is the token, or the text [undefined] when [resolved] has no
    ['#'].  A key that does not start with ['@'] adds no prefix. *)
Theorem plain_entry_descriptor
        (depRange : string) (dep : LockEntry)
        (r url pathname : string) (rest : list string) :
  resolved dep = Some r → r ≠ "" →
  JS.split "#" r = (url, rest) →
  JS.starts_with "git+https://" url = false →
  JS.ends_with ".git" url = false →
  url_parse_pathname url = Some pathname →
  ∃ p,
    entry depRange dep = Derived p ∧
    path p = fetchurl (path_basename pathname) url (JS.interp (head rest)) ∧
    name p = namespace_of depRange +:+ path_basename pathname ∧
    (rest = [] → path p = fetchurl (path_basename pathname) r "undefined") ∧
    (JS.starts_with "@" depRange = false →
     name p = path_basename pathname).
Proof.
  intros Hr Hne Hs Hg1 Hg2 Hp.
  assert (is_https_git url = None) as Hg
      by (unfold is_https_git; by rewrite Hg1, Hg2).
  eexists. split; [by eapply generateNix_entry_plain|].
  simpl. split; [done|]. split; [done|]. split.
  - intros ->. simpl. f_equal.
    destruct (decide (JS.lacks "#" r = true)) as [Hl|Hl].
    + rewrite (split_lacks _ _ Hl) in Hs. congruence.
    + exfalso. apply Hl. clear -Hs.
      revert url Hs. induction r as [|c r IH]; intros url; simpl; [done|].
      destruct (JS.split "#" r) as [q qs] eqn:Hq.
      destruct (Ascii.eqb c "#"); [done|].
      intros [= <- ->]. simpl. by rewrite (IH q).
  - intros Hat. unfold namespace_of, namespaceMatch.
    destruct depRange as [|c k]; [done|]. simpl in Hat.
    rewrite andb_true_r in Hat.
    destruct (Ascii.eqb_spec "@" c) as [<-|Hc]; [done|].
    destruct c as [[] [] [] [] [] [] [] []]; try done.
Qed.

(** X3.  Two source-control entries under the same namespace and with
    the same file name get the same name exactly when their tokens are
    equal: two revisions of one repository are both printed. *)
Theorem revision_distinguishes_git_names
        (k1 k2 : string) (dep1 dep2 : LockEntry)
        (r1 url1 tok1 pathname1 r2 url2 tok2 pathname2 : string)
        (more1 more2 : list string) (p1 p2 : package) :
  resolved dep1 = Some r1 → JS.split "#" r1 = (url1, tok1 :: more1) →
  JS.starts_with "git+https://" url1 = true ∨ JS.ends_with ".git" url1 = true →
  url_parse_pathname url1 = Some pathname1 →
  resolved dep2 = Some r2 → JS.split "#" r2 = (url2, tok2 :: more2) →
  JS.starts_with "git+https://" url2 = true ∨ JS.ends_with ".git" url2 = true →
  url_parse_pathname url2 = Some pathname2 →
  namespace_of k1 = namespace_of k2 →
  path_basename pathname1 = path_basename pathname2 →
  entry k1 dep1 = Derived p1 → entry k2 dep2 = Derived p2 →
  (name p1 = name p2 ↔ tok1 = tok2) ∧
  (tok1 ≠ tok2 → printed [(k1, dep1); (k2, dep2)] = [p1; p2]).
Proof.
  intros Hr1 Hs1 Hm1 Hp1 Hr2 Hs2 Hm2 Hp2 Hns Hb He1 He2.
  pose proof (generateNix_entry_git k1 dep1 _ _ _ _ _ Hr1 Hs1 Hm1 Hp1) as E1.
  pose proof (generateNix_entry_git k2 dep2 _ _ _ _ _ Hr2 Hs2 Hm2 Hp2) as E2.
  rewrite He1 in E1. rewrite He2 in E2.
  injection E1 as ->. injection E2 as ->.
  assert (namespace_of k1 +:+ path_basename pathname1 +:+ "-" +:+ tok1
          = namespace_of k2 +:+ path_basename pathname2 +:+ "-" +:+ tok2
          ↔ tok1 = tok2) as Hiff.
  { rewrite Hns, Hb. split; [|by intros ->].
    intros H. by do 3 apply String.app_inj in H. }
  split; [exact Hiff|]. intros Hne.
  unfold packages. simpl. rewrite He1, He2. simpl.
  rewrite decide_False by apply not_elem_of_empty.
  rewrite decide_False; [done|].
  rewrite elem_of_union, elem_of_singleton. intros [H|H].
  - symmetry in H. by apply Hiff in H.
  - by apply not_elem_of_empty in H.
Qed.

(** X4.  The name of an entry with a plain url depends on the key's
    namespace and on the file name only: of two such entries that agree
    on both, the second is dropped, whatever its host and its hash. *)
Theorem plain_names_ignore_host_and_hash
        (k1 k2 : string) (dep1 dep2 : LockEntry)
        (r1 url1 pathname1 r2 url2 pathname2 : string)
        (rest1 rest2 : list string) :
  resolved dep1 = Some r1 → r1 ≠ "" → JS.split "#" r1 = (url1, rest1) →
  is_https_git url1 = None → url_parse_pathname url1 = Some pathname1 →
  resolved dep2 = Some r2 → r2 ≠ "" → JS.split "#" r2 = (url2, rest2) →
  is_https_git url2 = None → url_parse_pathname url2 = Some pathname2 →
  namespace_of k1 = namespace_of k2 →
  path_basename pathname1 = path_basename pathname2 →
  printed [(k1, dep1); (k2, dep2)]
  = [mkPackage (namespace_of k1 +:+ path_basename pathname1)
       (fetchurl (path_basename pathname1) url1 (JS.interp (head rest1)))].
Proof.
  intros Hr1 Hn1 Hs1 Hg1 Hp1 Hr2 Hn2 Hs2 Hg2 Hp2 Hns Hb.
  unfold packages. simpl.
  rewrite (generateNix_entry_plain k1 dep1 _ _ _ _ Hr1 Hn1 Hs1 Hg1 Hp1).
  rewrite (generateNix_entry_plain k2 dep2 _ _ _ _ Hr2 Hn2 Hs2 Hg2 Hp2).
  simpl. rewrite decide_False by apply not_elem_of_empty.
  rewrite decide_True; [done|].
  rewrite Hns, Hb. apply elem_of_union_l. by apply elem_of_singleton.
Qed.

(** A scope of word characters ends at the first ['-']. *)
Lemma word_scope_inj w1 w2 c1 c2 :
  JS.all_word w1 = true → JS.all_word w2 = true →
  w1 +:+ String "-" c1 = w2 +:+ String "-" c2 → w1 = w2 ∧ c1 = c2.
Proof.
  revert w2. induction w1 as [|a w1 IH]; intros [|b w2] H1 H2; simpl in *.
  - by intros [= ->].
  - rewrite !append_cons, append_nil. intros [= <- _].
    by apply andb_prop in H2 as [? _].
  - rewrite !append_cons, append_nil. intros [= -> _].
    by apply andb_prop in H1 as [? _].
  - rewrite !append_cons. intros [= -> H].
    apply andb_prop in H1 as [_ H1]. apply andb_prop in H2 as [_ H2].
    destruct (IH w2 H1 H2 H) as [-> ->]. done.
Qed.

(** X5.  Two keys whose scopes are made of word characters and differ
    never get the same name, whatever their entries are: both packages
    are printed. *)
Theorem word_scopes_keep_names_apart
        (w1 rest1 w2 rest2 : string) (dep1 dep2 : LockEntry)
        (p1 p2 : package) :
  w1 ≠ "" → JS.all_word w1 = true →
  w2 ≠ "" → JS.all_word w2 = true →
  entry ("@" +:+ w1 +:+ "/" +:+ rest1) dep1 = Derived p1 →
  entry ("@" +:+ w2 +:+ "/" +:+ rest2) dep2 = Derived p2 →
  w1 ≠ w2 →
  name p1 ≠ name p2 ∧
  printed [("@" +:+ w1 +:+ "/" +:+ rest1, dep1);
           ("@" +:+ w2 +:+ "/" +:+ rest2, dep2)] = [p1; p2].
Proof.
  intros Hn1 Ha1 Hn2 Ha2 He1 He2 Hne.
  assert (name p1 ≠ name p2) as Hnames.
  { pose proof He1 as
        (? & ? & ? & ? & _ & _ & _ & _ & ->)%generateNix_entry_Derived.
    pose proof He2 as
        (? & ? & ? & ? & _ & _ & _ & _ & ->)%generateNix_entry_Derived.
    simpl. rewrite !namespace_of_scoped, !append_assoc by done.
    cons_chars. intros [= H].
    by apply word_scope_inj in H as [? _]. }
  split; [done|].
  unfold packages. simpl. rewrite He1, He2. simpl.
  rewrite decide_False by apply not_elem_of_empty.
  rewrite decide_False; [done|].
  rewrite elem_of_union, elem_of_singleton. intros [H|H]; [done|].
  by apply not_elem_of_empty in H.
Qed.

Lemma generateNix_loop_thrown found es1 k dep es2 :
  (candidates url_parse_pathname path_basename es1).2 = Normal →
  entry k dep = Failed →
  loop found (es1 ++ (k, dep) :: es2) = ((loop found es1).1, Thrown).
Proof.
  intros Hc Hf. revert found Hc.
  induction es1 as [|[k1 d1] es1 IH]; intros found Hc; simpl in *.
  { by rewrite Hf. }
  destruct (entry k1 d1) as [| |p]; [by apply IH|done|].
  assert ((candidates url_parse_pathname path_basename es1).2 = Normal)
    as Hc' by (by destruct (candidates _ _ es1)).
  destruct (decide (name p ∈ found)); [by apply IH|].
  rewrite (IH _ Hc'). by destruct (loop _ es1).
Qed.

(** X6.  When the url part of an entry has no pathname, the loop is left
    by an exception at that entry: the header and the packages of the
    entries before it have been printed, the entries after it are never
    looked at, and the two closing lines are not printed. *)
Theorem generateNix_stops_at_null_pathname
        (es1 es2 : list (string * LockEntry))
        (k : string) (dep : LockEntry) (r : string) :
  resolved dep = Some r → r ≠ "" →
  url_parse_pathname (JS.split "#" r).1 = None →
  (candidates url_parse_pathname path_basename es1).2 = Normal →
  gen (es1 ++ (k, dep) :: es2)
  = (HEAD :: (render_package <$> printed es1), Thrown).
Proof.
  intros Hr Hne Hp Hc.
  assert (entry k dep = Failed) as Hf.
  { unfold generateNix_entry. rewrite Hr.
    destruct r as [|c r]; [done|].
    unfold JS.destructure2. by rewrite Hp. }
  unfold generateNix, packages.
  rewrite (generateNix_loop_thrown _ _ _ _ _ Hc Hf).
  by rewrite app_nil_r.
Qed.

End BuilderMore.

(** * Further properties of the reconciler *)

Section ReconcilerMore.

Variable getSha1 : string → settled string.
Variable getGitSha1 : string → string → settled string.

Local Abbreviation start := updateResolvedSha1_start.
Local Abbreviation resume := (updateResolvedSha1_resume getSha1 getGitSha1).
Local Abbreviation update1 := (updateResolvedSha1 getSha1 getGitSha1).
Local Abbreviation fails := (lookup_fails getSha1 getGitSha1).
Local Abbreviation all := (Promise_all getSha1 getGitSha1).
Local Abbreviation rec := (reconcile getSha1 getGitSha1).

(** *** One call *)

(** X7.  An entry whose [resolved] has no token, or an empty one, is
    fetched from its url part as it stands, also when that url is a
    source-control one: [nix-prefetch-git] is not asked.  A failed fetch
    rejects the call; a successful one stores the literal. *)
Theorem tokenless_entry_is_fetched
        (pkg : LockEntry) (r url : string) (rest : list string) :
  resolved pkg = Some r → r ≠ "" →
  JS.split "#" r = (url, rest) →
  JS.truthy (head rest) = false →
  start pkg = AwaitSha1 url ∧
  (∀ e, getSha1 url = Rejected e → update1 pkg = Rejected e) ∧
  (∀ d, getSha1 url = Fulfilled d →
        update1 pkg
        = Fulfilled (mkEntry (Some resolved_literal) (sha256 pkg) (others pkg))).
Proof.
  intros Hr Hne Hs Ht.
  assert (start pkg = AwaitSha1 url) as Hstart.
  { unfold updateResolvedSha1_start. rewrite Hr.
    destruct r as [|c r]; [done|].
    rewrite destructure2_split_limit. unfold JS.destructure2.
    rewrite Hs. simpl. by rewrite Ht. }
  split; [done|]. unfold updateResolvedSha1. rewrite Hstart. simpl.
  split; [intros e ->|intros d ->]; done.
Qed.

(** X8.  An entry with a token and a source-control url is resolved by
    [nix-prefetch-git], called with the url without its [git+] when it
    starts with [git+https://] and with the token as revision.  The
    answer replaces [sha256], whatever it was; [resolved] is kept; a
    failure rejects the call.  The url is never fetched. *)
Theorem git_entry_is_prefetched
        (pkg : LockEntry) (r url tok : string) (more : list string) :
  resolved pkg = Some r →
  JS.split "#" r = (url, tok :: more) → tok ≠ "" →
  JS.starts_with "git+https://" url = true ∨ JS.ends_with ".git" url = true →
  let repo :=
    if JS.starts_with "git+https://" url then JS.substr 4 url else url in
  start pkg = AwaitGitSha1 repo tok ∧
  (∀ h, getGitSha1 repo tok = Fulfilled h →
        update1 pkg = Fulfilled (mkEntry (Some r) (Some h) (others pkg))) ∧
  (∀ e, getGitSha1 repo tok = Rejected e → update1 pkg = Rejected e).
Proof.
  intros Hr Hs Ht Hm repo.
  assert (start pkg = AwaitGitSha1 repo tok) as Hstart.
  { unfold updateResolvedSha1_start. rewrite Hr.
    destruct r as [|c r]; [done|].
    rewrite destructure2_split_limit. unfold JS.destructure2.
    rewrite Hs. destruct tok as [|a tok]; [done|]. simpl.
    by rewrite (is_https_git_matches url Hm). }
  split; [done|]. unfold updateResolvedSha1. rewrite Hstart. simpl.
  split; [intros h ->|intros e ->]; [by rewrite Hr|done].
Qed.

(** X9.  A call returns without any lookup exactly when the entry has no
    [resolved] field (or an empty one), or has a token that is not empty
    and a url that is not a source-control one; the entry is then
    returned as it is. *)
Theorem no_lookup_iff (pkg : LockEntry) :
  (start pkg = Returned ↔
   JS.truthy (resolved pkg) = false ∨
   ∃ r url tok more,
     resolved pkg = Some r ∧ JS.split "#" r = (url, tok :: more) ∧
     tok ≠ "" ∧ is_https_git url = None) ∧
  (start pkg = Returned → update1 pkg = Fulfilled pkg).
Proof.
  split; [|by unfold updateResolvedSha1; intros ->].
  unfold updateResolvedSha1_start.
  destruct (resolved pkg) as [[|c r]|] eqn:Hr.
  - split; [by left|done].
  - rewrite destructure2_split_limit. unfold JS.destructure2.
    destruct (JS.split "#" (String c r)) as [url [|tok more]] eqn:Hs; simpl.
    + split; [done|]. intros [?|(? & ? & ? & ? & [= <-] & Hs' & _)]; [done|].
      rewrite Hs in Hs'. done.
    + destruct tok as [|a tok]; simpl.
      * split; [done|].
        intros [?|(? & ? & ? & ? & [= <-] & Hs' & Hne & _)]; [done|].
        rewrite Hs in Hs'. by injection Hs' as <- <- <-.
      * destruct (is_https_git url) as [g|] eqn:Hg.
        -- split; [done|].
           intros [?|(? & ? & ? & ? & [= <-] & Hs' & _ & Hg')]; [done|].
           rewrite Hs in Hs'. injection Hs' as <- <- <-. congruence.
        -- split; [|done]. intros _. right.
           by exists (String c r), url, (String a tok), more.
  - split; [by left|done].
Qed.

Lemma resume_idem p e e1 :
  resume p e = Fulfilled e1 → resume p e1 = Fulfilled e1.
Proof.
  destruct p as [|url|g rev]; simpl.
  - done.
  - destruct (getSha1 url); [|done]. by intros [= <-].
  - destruct (getGitSha1 g rev); [|done]. by intros [= <-].
Qed.

Lemma resume_rejected_indep p e e' err :
  resume p e = Rejected err → resume p e' = Rejected err.
Proof.
  destruct p as [|url|g rev]; simpl; [done| |].
  - by destruct (getSha1 url).
  - by destruct (getGitSha1 g rev).
Qed.

(** A call that is fulfilled leaves an entry that carries its hashes. *)
Lemma updateResolvedSha1_fully_hashes pkg pkg' :
  update1 pkg = Fulfilled pkg' → fully_hashed getGitSha1 pkg' = true.
Proof.
  unfold updateResolvedSha1, updateResolvedSha1_start.
  destruct (resolved pkg) as [[|c r]|] eqn:Hr.
  - intros [= <-]. unfold fully_hashed. by rewrite Hr.
  - rewrite destructure2_split_limit. unfold JS.destructure2.
    destruct (JS.split "#" (String c r)) as [url [|tok more]] eqn:Hs; simpl.
    + destruct (getSha1 url); [|done]. by intros [= <-].
    + destruct tok as [|a tok]; simpl.
      * destruct (getSha1 url); [|done]. by intros [= <-].
      * destruct (is_https_git url) as [g|] eqn:Hg; simpl.
        -- destruct (getGitSha1 g (String a tok)) as [h|] eqn:Ht; [|done].
           intros [= <-]. unfold fully_hashed. simpl.
           rewrite Hr, Hs, Hg, Ht. simpl. by apply bool_decide_eq_true.
        -- intros [= <-]. unfold fully_hashed. by rewrite Hr, Hs, Hg.
  - intros [= <-]. unfold fully_hashed. by rewrite Hr.
Qed.

(** *** All calls *)

(** While [Promise.all] is pending, every entry is as the parser left it
    or as its own call leaves it; the entries of the calls that were
    resumed are as their calls leave them. *)
Lemma Promise_all_settles pkgs (orig : store) sched (h : store)
      (D : nat → Prop) :
  (∀ r, h r = orig r ∨ (r ∈ pkgs ∧ update1 (orig r) = Fulfilled (h r))) →
  (∀ r, D r → update1 (orig r) = Fulfilled (h r)) →
  (all sched (start_all pkgs orig) h).2 = None →
  (∀ r, (all sched (start_all pkgs orig) h).1 r = orig r ∨
        (r ∈ pkgs ∧
         update1 (orig r)
         = Fulfilled ((all sched (start_all pkgs orig) h).1 r))) ∧
  (∀ r, D r →
        update1 (orig r)
        = Fulfilled ((all sched (start_all pkgs orig) h).1 r)) ∧
  (∀ i r p, i ∈ sched → start_all pkgs orig !! i = Some (r, p) →
            update1 (orig r)
            = Fulfilled ((all sched (start_all pkgs orig) h).1 r)).
Proof.
  revert h D. induction sched as [|i sched IH]; intros h D HQ HD; simpl.
  { intros _. split; [done|]. split; [done|].
    intros i r p Hi. by apply elem_of_nil in Hi. }
  destruct (start_all pkgs orig !! i) as [[r p]|] eqn:Hi.
  - destruct (resume p (h r)) as [pkg'|e] eqn:Hres; [|done].
    apply start_all_lookup in Hi as Hi'. destruct Hi' as [Hr ->].
    assert (update1 (orig r) = Fulfilled pkg') as Hu.
    { unfold updateResolvedSha1.
      destruct (HQ r) as [Heq|[_ Hu]]; [by rewrite Heq in Hres|].
      unfold updateResolvedSha1 in Hu.
      pose proof (resume_idem _ _ _ Hu) as Hid. congruence. }
    intros Hnone.
    destruct (IH (<[r := pkg']> h) (λ r', D r' ∨ r' = r)) as (H1 & H2 & H3).
    + intros r'. destruct (decide (r = r')) as [<-|Hne].
      * rewrite fn_lookup_insert. right. split; [|done].
        by eapply list_elem_of_lookup_2.
      * rewrite fn_lookup_insert_ne by done. apply HQ.
    + intros r' [Hd| ->].
      * destruct (decide (r = r')) as [<-|Hne].
        -- by rewrite fn_lookup_insert.
        -- rewrite fn_lookup_insert_ne by done. by apply HD.
      * by rewrite fn_lookup_insert.
    + done.
    + split; [done|]. split; [by intros r' Hd; apply H2; left|].
      intros j r' p' [->|Hj]%elem_of_cons Hj'.
      * rewrite Hi in Hj'. injection Hj' as <- <-. apply H2. by right.
      * by eapply H3.
  - intros Hnone. destruct (IH h D HQ HD Hnone) as (H1 & H2 & H3).
    split; [done|]. split; [done|].
    intros j r' p' [->|Hj]%elem_of_cons Hj'; [congruence|by eapply H3].
Qed.

(** Every call has been resumed when the schedule covers all of them. *)
Lemma reconcile_complete sched obj (orig h : store) :
  sched ≡ₚ seq 0 (length obj) →
  rec sched obj orig = (h, None) →
  (∀ key r, (key, r) ∈ obj → update1 (orig r) = Fulfilled (h r)) ∧
  (∀ r, r ∉ values obj → h r = orig r).
Proof.
  intros Hperm Hrec. unfold reconcile in Hrec.
  destruct (Promise_all_settles (values obj) orig sched orig (λ _, False))
    as (H1 & _ & H3); [by left|done|by rewrite Hrec|].
  rewrite Hrec in H1, H3. simpl in *. split.
  - intros key r [i Hi]%list_elem_of_lookup.
    apply (H3 i r (start (orig r))).
    + rewrite Hperm. apply elem_of_seq. apply lookup_lt_Some in Hi. lia.
    + unfold start_all, values. by rewrite !list_lookup_fmap, Hi.
  - intros r Hr. by destruct (H1 r) as [?|[? _]].
Qed.

Lemma reconcile_fulfilled sched obj (orig : store) :
  Forall (λ kr, fails (start (orig kr.2)) = false) obj →
  (rec sched obj orig).2 = None.
Proof.
  intros Hall. unfold reconcile. apply Promise_all_fulfilled.
  intros i r p [Hi ->]%start_all_lookup.
  unfold values in Hi. rewrite list_lookup_fmap in Hi.
  destruct (obj !! i) as [[key r']|] eqn:Ho; simplify_eq/=.
  by apply (Forall_lookup_1 _ _ _ _ Hall Ho).
Qed.

(** X10.  When no lookup fails, the concurrent reconciliation is the
    call of [updateResolvedSha1] on every entry taken alone: whatever
    the order in which the lookups answer, it succeeds, every entry
    bound to a key is what its own call returns for the entry as parsed
    (also when the entry is bound to several keys), and the store is
    untouched elsewhere. *)
Theorem reconcile_is_pointwise
        (sched : list nat) (obj : lockobj) (orig : store) :
  sched ≡ₚ seq 0 (length obj) →
  Forall (λ kr, fails (start (orig kr.2)) = false) obj →
  ∃ h,
    rec sched obj orig = (h, None) ∧
    (∀ key r, (key, r) ∈ obj → update1 (orig r) = Fulfilled (h r)) ∧
    (∀ r, r ∉ values obj → h r = orig r).
Proof.
  intros Hperm Hall.
  destruct (rec sched obj orig) as [h st] eqn:Hrec.
  pose proof (reconcile_fulfilled sched obj orig Hall) as Hst.
  rewrite Hrec in Hst. simpl in Hst. subst st.
  exists h. split; [done|]. by apply (reconcile_complete sched).
Qed.

(** X11.  The lockfile that reconciliation yields does not depend on the
    order in which the lookups answer. *)
Theorem reconcile_order_independent
        (sched1 sched2 : list nat) (obj : lockobj) (orig h1 h2 : store) :
  sched1 ≡ₚ seq 0 (length obj) →
  sched2 ≡ₚ seq 0 (length obj) →
  rec sched1 obj orig = (h1, None) →
  rec sched2 obj orig = (h2, None) →
  (∀ r, h1 r = h2 r) ∧ entries obj h1 = entries obj h2.
Proof.
  intros Hp1 Hp2 Hr1 Hr2.
  destruct (reconcile_complete _ _ _ _ Hp1 Hr1) as [Ha1 Hb1].
  destruct (reconcile_complete _ _ _ _ Hp2 Hr2) as [Ha2 Hb2].
  assert (∀ r, h1 r = h2 r) as Hsame.
  { intros r. destruct (decide (r ∈ values obj)) as [Hin|Hout].
    - unfold values in Hin. apply list_elem_of_fmap in Hin as ([key r'] & -> & Hin).
      simpl. pose proof (Ha1 _ _ Hin) as E1. pose proof (Ha2 _ _ Hin) as E2.
      congruence.
    - by rewrite Hb1, Hb2. }
  split; [done|]. by apply entries_ext.
Qed.

(** Reconciling a store whose entries carry their hashes succeeds and
    changes nothing. *)
Lemma reconcile_fully_hashed_store sched obj (h : store) :
  Forall (λ kr, fully_hashed getGitSha1 (h kr.2) = true) obj →
  (rec sched obj h).2 = None ∧ ∀ r, (rec sched obj h).1 r = h r.
Proof.
  intros Hall.
  assert (∀ i r p, start_all (values obj) h !! i = Some (r, p) →
                   fully_hashed getGitSha1 (h r) = true ∧
                   p = start (h r)) as Htask.
  { intros i r p [Hi ->]%start_all_lookup. split; [|done].
    unfold values in Hi. rewrite list_lookup_fmap in Hi.
    destruct (obj !! i) as [[key r']|] eqn:Ho; simplify_eq/=.
    by apply (Forall_lookup_1 _ _ _ _ Hall Ho). }
  split.
  - unfold reconcile. apply Promise_all_fulfilled.
    intros i r p [Hfull ->]%Htask.
    destruct (start_fully_hashed _ _ Hfull)
      as [Hs|(g & rev & hh & Hs & Hg & Hsha)];
      rewrite Hs; simpl; [done|by rewrite Hg].
  - unfold reconcile.
    apply (Promise_all_invariant _ _ (λ h', ∀ r, h' r = h r)); [done|].
    intros h' i r p pkg' Hh' [Hfull ->]%Htask Hr r'.
    destruct (decide (r = r')) as [<-|Hne];
      [|by rewrite fn_lookup_insert_ne].
    rewrite fn_lookup_insert.
    destruct (start_fully_hashed _ _ Hfull)
      as [Hs|(g & rev & hh & Hs & Hg & Hsha)];
      rewrite Hs in Hr; simpl in Hr.
    + injection Hr as <-. apply Hh'.
    + rewrite Hg in Hr. injection Hr as <-.
      rewrite Hh', <-Hsha. by destruct (h r).
Qed.

(** X12.  Reconciliation is idempotent: after a reconciliation that
    succeeded, every entry bound to a key carries its hashes, and a
    second reconciliation, in any order, succeeds and changes nothing. *)
Theorem reconcile_idempotent
        (sched sched' : list nat) (obj : lockobj) (orig h : store) :
  sched ≡ₚ seq 0 (length obj) →
  rec sched obj orig = (h, None) →
  Forall (λ kr, fully_hashed getGitSha1 (h kr.2) = true) obj ∧
  ∃ h', rec sched' obj h = (h', None) ∧
        (∀ r, h' r = h r) ∧
        entries obj h' = entries obj h.
Proof.
  intros Hperm Hrec.
  destruct (reconcile_complete _ _ _ _ Hperm Hrec) as [Ha _].
  assert (Forall (λ kr, fully_hashed getGitSha1 (h kr.2) = true) obj)
    as Hfull.
  { apply Forall_forall. intros [key r] Hin. simpl.
    by eapply updateResolvedSha1_fully_hashes, Ha. }
  split; [done|].
  destruct (reconcile_fully_hashed_store sched' obj h Hfull) as [Hst Hh].
  destruct (rec sched' obj h) as [h' st]. simpl in *. subst st.
  exists h'. split; [done|]. split; [done|]. by apply entries_ext.
Qed.

(** The calls resumed before the first failure do not reject. *)
Lemma Promise_all_prefix s1 s2 tasks (h : store) :
  (∀ j r p, j ∈ s1 → tasks !! j = Some (r, p) → fails p = false) →
  ∃ h', all (s1 ++ s2) tasks h = all s2 tasks h'.
Proof.
  revert h. induction s1 as [|j s1 IH]; intros h Hok; simpl.
  { by exists h. }
  destruct (tasks !! j) as [[r p]|] eqn:Hj.
  - destruct (resume p (h r)) as [pkg'|e] eqn:Hres.
    + apply IH. intros j' r' p' Hin. apply Hok. by right.
    + assert (fails p = true) as Hf
          by (apply (resume_rejects getSha1 getGitSha1 p (h r)); eauto).
      rewrite (Hok j r p) in Hf; [done|by left|done].
  - apply IH. intros j' r' p' Hin. apply Hok. by right.
Qed.

(** X13.  The error that ends reconciliation is the one of the first
    lookup, in the order in which they answer, that fails; the lookups
    that would have answered later play no part. *)
Theorem first_failure_is_reported
        (s1 s2 : list nat) (i : nat) (obj : lockobj) (orig : store)
        (key : string) (r : nat) (e : string) :
  (∀ j k' r', j ∈ s1 → obj !! j = Some (k', r') →
              fails (start (orig r')) = false) →
  obj !! i = Some (key, r) →
  updateResolvedSha1 getSha1 getGitSha1 (orig r) = Rejected e →
  (reconcile getSha1 getGitSha1 (s1 ++ i :: s2) obj orig).2 = Some e.
Proof.
  intros Hok Hi He. unfold reconcile.
  destruct (Promise_all_prefix s1 (i :: s2)
              (start_all (values obj) orig) orig) as [h' ->].
  { intros j r' p Hj [Hr ->]%start_all_lookup.
    unfold values in Hr. rewrite list_lookup_fmap in Hr.
    destruct (obj !! j) as [[k' r'']|] eqn:Ho; simplify_eq/=.
    by eapply Hok. }
  simpl.
  assert (start_all (values obj) orig !! i = Some (r, start (orig r))) as ->.
  { unfold start_all, values. by rewrite !list_lookup_fmap, Hi. }
  unfold updateResolvedSha1 in He.
  by rewrite (resume_rejected_indep _ _ (h' r) _ He).
Qed.

End ReconcilerMore.

(** * Further properties of the main program *)

Section MainMore.

Variable url_parse_pathname : string → option string.
Variable path_basename : string → string.
Variable getSha1 : string → settled string.
Variable getGitSha1 : string → string → settled string.
Variable lockfile_parse : string → option (lockobj * store).
Variable lockfile_stringify : list (string * LockEntry) → string.

Local Abbreviation entry := (generateNix_entry url_parse_pathname path_basename).
Local Abbreviation gen := (generateNix url_parse_pathname path_basename).
Local Abbreviation emit := (emit_nix url_parse_pathname path_basename).
Local Abbreviation update1 := (updateResolvedSha1 getSha1 getGitSha1).
Local Abbreviation rec := (reconcile getSha1 getGitSha1).
Local Abbreviation run :=
  (main url_parse_pathname path_basename getSha1 getGitSha1
        lockfile_parse lockfile_stringify).

Lemma exit_code_stdout lines t :
  exit_code ((Stdout <$> lines) ++ t) = exit_code t.
Proof. induction lines as [|l lines IH]; simpl; done. Qed.

Lemma exit_code_emit_nix opts obj h :
  exit_code (emit opts obj h)
  = Some (if opt_no_nix opts then 0
          else match (gen (entries obj h)).2 with
               | Normal => 0
               | Thrown => 1
               end).
Proof.
  unfold emit_nix. destruct (opt_no_nix opts); [done|].
  destruct (gen (entries obj h)) as [lines []]; simpl;
    by rewrite exit_code_stdout.
Qed.

Lemma filter_no_write t :
  Forall (λ e, is_write e = false) t →
  filter (λ e, is_write e = true) t = [].
Proof.
  induction 1 as [|e t He _ IH]; [done|].
  rewrite filter_cons, decide_False by congruence. done.
Qed.

Lemma emit_nix_no_nix opts obj h :
  opt_no_nix opts = true → emit opts obj h = [Exit 0].
Proof. unfold emit_nix. by intros ->. Qed.

(** X14.  In a run that got past the parsing of the command line (the
    options are those [docopt] returned), with [--no-nix] nothing is
    written to the standard output, whatever the lockfile, the lookups,
    their order and [--no-patch]. *)
Theorem no_nix_prints_nothing
        (opts : options) (data : string) (sched : list nat) :
  opt_no_nix opts = true →
  Forall (λ e, is_stdout e = false) (run opts data sched).
Proof.
  intros Hnn. unfold main.
  destruct (lockfile_parse data) as [[obj orig]|]; [|by repeat constructor].
  destruct (rec sched obj orig) as [h [e|]]; [by repeat constructor|].
  rewrite (emit_nix_no_nix _ _ _ Hnn).
  destruct (equal obj orig h); simpl; [by repeat constructor|].
  destruct (opt_no_patch opts); by repeat constructor.
Qed.

(** X15.  For a run that got past the parsing of the command line, whose
    lockfile parses and in which every lookup answers: the status is 0
    or 1; status 0 implies that no lookup failed, that reconciliation
    succeeded, that the lockfile was unchanged or could be patched, and
    that the catalog was not asked for or was printed to its end; and
    when reconciliation succeeds and leaves the lockfile unchanged, the
    status is 0 exactly when the catalog is not asked for or is printed
    to its end. *)
Theorem exit_status_conditions
        (opts : options) (data : string) (sched : list nat)
        (obj : lockobj) (orig : store) :
  lockfile_parse data = Some (obj, orig) →
  sched ≡ₚ seq 0 (length obj) →
  (exit_code (run opts data sched) = Some 0 ∨
   exit_code (run opts data sched) = Some 1) ∧
  (exit_code (run opts data sched) = Some 0 →
   (∀ key r, (key, r) ∈ obj →
             lookup_fails getSha1 getGitSha1
                          (updateResolvedSha1_start (orig r)) = false) ∧
   ∃ h,
     reconcile getSha1 getGitSha1 sched obj orig = (h, None) ∧
     (equal obj orig h = true ∨ opt_no_patch opts = false) ∧
     (opt_no_nix opts = true ∨ (gen (entries obj h)).2 = Normal)) ∧
  (∀ h,
     reconcile getSha1 getGitSha1 sched obj orig = (h, None) →
     equal obj orig h = true →
     (exit_code (run opts data sched) = Some 0 ↔
      opt_no_nix opts = true ∨ (gen (entries obj h)).2 = Normal)).
Proof.
  intros Hparse Hperm.
  assert (∀ h', ∀ key r, (key, r) ∈ obj →
            lookup_fails getSha1 getGitSha1
                         (updateResolvedSha1_start (orig r)) = true →
            rec sched obj orig ≠ (h', None)) as Hrej.
  { intros h' key r [i Hi]%list_elem_of_lookup Hf Hrec.
    destruct (Promise_all_rejected getSha1 getGitSha1 sched
                (start_all (values obj) orig) orig i r
                (updateResolvedSha1_start (orig r))) as [e He].
    - rewrite Hperm. apply elem_of_seq. apply lookup_lt_Some in Hi. lia.
    - unfold start_all, values. by rewrite !list_lookup_fmap, Hi.
    - done.
    - unfold reconcile in Hrec. rewrite Hrec in He. done. }
  unfold main. rewrite Hparse.
  destruct (rec sched obj orig) as [h [e|]] eqn:Hrec.
  { split; [by right|]. split; [done|]. by intros h' [= _ ?]. }
  assert (exit_code (emit opts obj h) = Some 0 ∨
          exit_code (emit opts obj h) = Some 1) as H01.
  { rewrite exit_code_emit_nix. destruct (opt_no_nix opts); [by left|].
    destruct (gen (entries obj h)).2; [by left|by right]. }
  assert (exit_code (emit opts obj h) = Some 0 ↔
          opt_no_nix opts = true ∨ (gen (entries obj h)).2 = Normal) as Hemit.
  { rewrite exit_code_emit_nix. destruct (opt_no_nix opts).
    - split; [by left|done].
    - destruct (gen (entries obj h)).2; split; try done; try by right.
      by intros [?|?]. }
  assert (∀ key r, (key, r) ∈ obj →
            lookup_fails getSha1 getGitSha1
                         (updateResolvedSha1_start (orig r)) = false) as Hok.
  { intros key r Hin.
    destruct (lookup_fails _ _ _) eqn:Hf; [|done].
    by destruct (Hrej h key r Hin Hf). }
  destruct (equal obj orig h) eqn:Heq; simpl.
  - split; [done|]. split.
    + intros H0. split; [done|]. exists h.
      split; [done|]. split; [by left|]. by apply Hemit.
    + intros h' [= <-] _. done.
  - destruct (opt_no_patch opts) eqn:Hnp; simpl.
    + split; [by right|]. split; [done|].
      intros h' [= <-]. congruence.
    + split; [done|]. split.
      * intros H0. split; [done|]. exists h.
        split; [done|]. split; [by right|]. by apply Hemit.
      * intros h' [= <-]. congruence.
Qed.


(** X17.  A run writes at most one file, and only the lockfile it was
    given: either it writes nothing, or it parsed the lockfile,
    reconciled it with success, found it changed, was not told
    [--no-patch], and wrote the serialization of the reconciled entries
    to the path of the lockfile. *)
Theorem writes_at_most_its_lockfile
        (opts : options) (data : string) (sched : list nat) :
  filter (λ e, is_write e = true) (run opts data sched) = [] ∨
  ∃ obj orig h,
    lockfile_parse data = Some (obj, orig) ∧
    rec sched obj orig = (h, None) ∧
    equal obj orig h = false ∧
    opt_no_patch opts = false ∧
    filter (λ e, is_write e = true) (run opts data sched)
    = [WriteFile (opt_lockfile opts) (lockfile_stringify (entries obj h))].
Proof.
  unfold main.
  destruct (lockfile_parse data) as [[obj orig]|] eqn:Hparse; [|by left].
  destruct (rec sched obj orig) as [h [e|]] eqn:Hrec; [by left|].
  destruct (equal obj orig h) eqn:Heq; simpl.
  { left. apply filter_no_write, emit_nix_no_write. }
  destruct (opt_no_patch opts) eqn:Hnp; [by left|].
  right. exists obj, orig, h. repeat split; try done.
  rewrite filter_cons, decide_False by done.
  rewrite filter_cons, decide_True by done.
  by rewrite (filter_no_write _ (emit_nix_no_write _ _ _ _ _)).
Qed.

Lemma render_package_not_brace p : render_package p ≠ "}".
Proof. unfold render_package. discriminate. Qed.

(** X18.  When the catalog is asked for and the loop of [generateNix] is
    left by an exception, the run ends with status 1 after the header
    has been printed, and the closing brace is never printed: the
    standard output holds an unfinished expression. *)
Theorem failed_catalog_is_partial
        (opts : options) (data : string) (sched : list nat)
        (obj : lockobj) (orig h : store) :
  lockfile_parse data = Some (obj, orig) →
  rec sched obj orig = (h, None) →
  equal obj orig h = true ∨ opt_no_patch opts = false →
  opt_no_nix opts = false →
  (gen (entries obj h)).2 = Thrown →
  exit_code (run opts data sched) = Some 1 ∧
  Stdout HEAD ∈ run opts data sched ∧
  Stdout "}" ∉ run opts data sched.
Proof.
  intros Hparse Hrec Hgo Hnn Hthrown.
  assert (exit_code (emit opts obj h) = Some 1 ∧
          Stdout HEAD ∈ emit opts obj h ∧
          Stdout "}" ∉ emit opts obj h) as (He1 & He2 & He3).
  { rewrite exit_code_emit_nix, Hnn, Hthrown. split; [done|].
    unfold emit_nix. rewrite Hnn.
    unfold generateNix in *.
    destruct (generateNix_loop _ _ _ _) as [ps c]. simpl in Hthrown.
    subst c. rewrite app_nil_r. split.
    - apply elem_of_app. left. rewrite fmap_cons. by left.
    - intros [Hin|Hin]%elem_of_app.
      + apply list_elem_of_fmap in Hin as (l & [= <-] & Hl).
        apply elem_of_cons in Hl as [?|Hl]; [done|].
        apply list_elem_of_fmap in Hl as (p & Hp & _).
        by eapply render_package_not_brace.
      + apply elem_of_cons in Hin as [?|Hin]; [done|].
        apply elem_of_cons in Hin as [?|Hin]; [done|].
        by apply elem_of_nil in Hin. }
  unfold main. rewrite Hparse, Hrec.
  destruct (equal obj orig h) eqn:Heq; simpl; [done|].
  destruct Hgo as [?|Hnp]; [done|]. rewrite Hnp.
  split; [done|]. split.
  - by do 2 right.
  - intros [?|[?|?]%elem_of_cons]%elem_of_cons; done.
Qed.

(** X19.  Reconciler and builder agree on a source-control entry: once
    [nix-prefetch-git] has answered for the entry, the package derived
    from the reconciled entry carries that answer as its [sha256], the
    same repository url as the one the tool was called with, and the
    token as revision. *)
Theorem reconciled_git_entry_is_printed_with_hash
        (depRange : string) (pkg : LockEntry)
        (r url tok pathname h : string) (more : list string) :
  resolved pkg = Some r →
  JS.split "#" r = (url, tok :: more) → tok ≠ "" →
  JS.starts_with "git+https://" url = true ∨ JS.ends_with ".git" url = true →
  getGitSha1
    (if JS.starts_with "git+https://" url then JS.substr 4 url else url) tok
  = Fulfilled h →
  url_parse_pathname url = Some pathname →
  ∃ pkg',
    update1 pkg = Fulfilled pkg' ∧
    entry depRange pkg'
    = Derived
        (mkPackage
           (namespace_of depRange +:+ path_basename pathname +:+ "-" +:+ tok)
           (fetchgitTarball (path_basename pathname)
              (if JS.starts_with "git+https://" url
               then JS.substr 4 url else url)
              tok h)).
Proof.
  intros Hr Hs Ht Hm Hg Hp.
  exists (mkEntry (Some r) (Some h) (others pkg)). split.
  - pose proof (is_https_git_matches url Hm) as Hgit.
    set (repo := if JS.starts_with "git+https://" url
                 then JS.substr 4 url else url) in *.
    unfold updateResolvedSha1, updateResolvedSha1_start. rewrite Hr.
    destruct r as [|c r]; [done|].
    rewrite destructure2_split_limit. unfold JS.destructure2.
    rewrite Hs. destruct tok as [|a tok]; [done|]. simpl.
    rewrite Hgit. simpl. by rewrite Hg, Hr.
  - by rewrite (generateNix_entry_git _ _ depRange _ r url tok more pathname).
Qed.

End MainMore.

(** * Properties of [getSha1] *)

Section GetSha1More.

Variable Hash : Type.
Variable createHash : Hash.
Variable update : Hash → string → Hash.
Variable digest : Hash → string.

Local Abbreviation events := (getSha1_events Hash update digest).
Local Abbreviation response :=
  (getSha1_response Hash createHash update digest).

Lemma getSha1_events_data hash chunks evs :
  events hash ((OnData <$> chunks) ++ evs)
  = events (foldl update hash chunks) evs.
Proof.
  revert hash. induction chunks as [|c chunks IH]; intros hash; simpl; done.
Qed.

(** Every stream of events is some [data] events followed by nothing, by
    an [end] or by an [error]. *)
Lemma res_events_shape (evs : list res_event) :
  ∃ chunks,
    evs = OnData <$> chunks ∨
    (∃ rest, evs = (OnData <$> chunks) ++ OnEnd :: rest) ∨
    (∃ e rest, evs = (OnData <$> chunks) ++ OnError e :: rest).
Proof.
  induction evs as [|[c| |e] evs (chunks & IH)].
  - exists []. by left.
  - exists (c :: chunks).
    destruct IH as [->|[[rest ->]|(e & rest & ->)]]; eauto 6.
  - exists []. right. left. by exists evs.
  - exists []. right. right. by exists e, evs.
Qed.

(** X20.  The promise of [getSha1] is fulfilled exactly when the status
    is 200 and the response ends before any error; its value is the
    digest of the hash fed with the chunks received before the end, in
    their order. *)
Theorem getSha1_fulfilled_iff
        (statusCode : nat) (evs : list res_event) (d : string) :
  response statusCode evs = Some (Fulfilled d) ↔
  statusCode = 200 ∧
  ∃ chunks rest,
    evs = (OnData <$> chunks) ++ OnEnd :: rest ∧
    d = digest (foldl update createHash chunks).
Proof.
  unfold getSha1_response.
  destruct (Nat.eqb_spec statusCode 200) as [->|Hne]; simpl.
  2:{ split; [done|]. by intros [? _]. }
  split.
  - intros Hev. split; [done|].
    destruct (res_events_shape evs)
      as (chunks & [->|[[rest ->]|(e & rest & ->)]]).
    + replace (OnData <$> chunks) with ((OnData <$> chunks) ++ []) in Hev
        by apply app_nil_r.
      by rewrite getSha1_events_data in Hev.
    + rewrite getSha1_events_data in Hev. simpl in Hev.
      injection Hev as <-. by exists chunks, rest.
    + by rewrite getSha1_events_data in Hev.
  - intros [_ (chunks & rest & -> & ->)].
    by rewrite getSha1_events_data.
Qed.

(** X21.  The promise is rejected exactly when the status is not 200,
    whatever the response emits afterwards, or the status is 200 and the
    response emits an error before it ends. *)
Theorem getSha1_rejected_iff
        (statusCode : nat) (evs : list res_event) (err : string) :
  response statusCode evs = Some (Rejected err) ↔
  (statusCode ≠ 200 ∧
   err = "Request Failed." +:+ JS.nl +:+ "Status Code: " +:+ pretty statusCode) ∨
  (statusCode = 200 ∧
   ∃ chunks rest, evs = (OnData <$> chunks) ++ OnError err :: rest).
Proof.
  unfold getSha1_response.
  destruct (Nat.eqb_spec statusCode 200) as [->|Hne]; simpl.
  2:{ split.
      - intros [= <-]. by left.
      - intros [[_ ->]|[? _]]; done. }
  split.
  - intros Hev. right. split; [done|].
    destruct (res_events_shape evs)
      as (chunks & [->|[[rest ->]|(e & rest & ->)]]).
    + replace (OnData <$> chunks) with ((OnData <$> chunks) ++ []) in Hev
        by apply app_nil_r.
      by rewrite getSha1_events_data in Hev.
    + by rewrite getSha1_events_data in Hev.
    + rewrite getSha1_events_data in Hev. simpl in Hev.
      injection Hev as <-. by exists chunks, rest.
  - intros [[? _]|[_ (chunks & rest & ->)]]; [done|].
    by rewrite getSha1_events_data.
Qed.

(** X22.  The promise never settles exactly when the status is 200 and
    the response emits neither an end nor an error. *)
Theorem getSha1_pending_iff (statusCode : nat) (evs : list res_event) :
  response statusCode evs = None ↔
  statusCode = 200 ∧ ∃ chunks, evs = OnData <$> chunks.
Proof.
  unfold getSha1_response.
  destruct (Nat.eqb_spec statusCode 200) as [->|Hne]; simpl.
  2:{ split; [done|]. by intros [? _]. }
  split.
  - intros Hev. split; [done|].
    destruct (res_events_shape evs)
      as (chunks & [->|[[rest ->]|(e & rest & ->)]]).
    + by exists chunks.
    + by rewrite getSha1_events_data in Hev.
    + by rewrite getSha1_events_data in Hev.
  - intros [_ [chunks ->]].
    replace (OnData <$> chunks) with ((OnData <$> chunks) ++ [])
      by apply app_nil_r.
    by rewrite getSha1_events_data.
Qed.

Lemma append_nil_r s : s +:+ "" = s.
Proof. induction s as [|c s IH]; [done|]. by rewrite append_cons, IH. Qed.

Lemma foldl_update_concat hash chunks :
  (∀ h a b, update (update h a) b = update h (a +:+ b)) →
  (∀ h, update h "" = h) →
  foldl update hash chunks = update hash (String.concat "" chunks).
Proof.
  intros Hcat Hunit. revert hash.
  induction chunks as [|c chunks IH]; intros hash.
  { by rewrite Hunit. }
  cbn [foldl]. rewrite IH, Hcat.
  destruct chunks as [|c' chunks]; cbn [String.concat].
  - by rewrite append_nil_r.
  - done.
Qed.

(** X23.  For a hash that may be fed piecewise, the value of the promise
    depends on the bytes of the body only, not on how the response cuts
    them into chunks. *)
Theorem getSha1_ignores_chunking
        (chunks1 chunks2 : list string) (rest1 rest2 : list res_event) :
  (∀ h a b, update (update h a) b = update h (a +:+ b)) →
  (∀ h, update h "" = h) →
  String.concat "" chunks1 = String.concat "" chunks2 →
  response 200 ((OnData <$> chunks1) ++ OnEnd :: rest1)
  = response 200 ((OnData <$> chunks2) ++ OnEnd :: rest2) ∧
  response 200 ((OnData <$> chunks1) ++ OnEnd :: rest1)
  = Some (Fulfilled
            (digest (update createHash (String.concat "" chunks1)))).
Proof.
  intros Hcat Hunit Hsame. unfold getSha1_response. simpl.
  rewrite !getSha1_events_data. simpl.
  rewrite !foldl_update_concat by done. by rewrite Hsame.
Qed.

End GetSha1More.

(** * The further properties on the example lockfiles *)

Lemma generateNix_skips_unresolved_witness :
  generateNix Node.pathname Node.basename
              [("ws@0.0.0", Example.workspace);
               ("empty@0.0.0", mkEntry (Some "") None [])]
  = ([HEAD; "  ];"; "}"], Normal).
Proof.
  apply (generateNix_skips_unresolved Node.pathname Node.basename).
  repeat constructor.
Defined.

Lemma plain_entry_descriptor_witness :
  ∃ p,
    generateNix_entry Node.pathname Node.basename "a@^1.0.0" Example.unhashed
    = Derived p ∧
    path p = fetchurl (Node.basename "/a-1.0.0.tgz")
               "https://example.com/a-1.0.0.tgz"
               (JS.interp (head (@nil string))) ∧
    name p = namespace_of "a@^1.0.0" +:+ Node.basename "/a-1.0.0.tgz" ∧
    (@nil string = [] →
     path p = fetchurl (Node.basename "/a-1.0.0.tgz")
                "https://example.com/a-1.0.0.tgz" "undefined") ∧
    (JS.starts_with "@" "a@^1.0.0" = false →
     name p = Node.basename "/a-1.0.0.tgz").
Proof.
  apply (plain_entry_descriptor
           Node.pathname Node.basename "a@^1.0.0" Example.unhashed
           "https://example.com/a-1.0.0.tgz"
           "https://example.com/a-1.0.0.tgz" "/a-1.0.0.tgz" []);
    [reflexivity|discriminate|reflexivity|reflexivity|reflexivity|reflexivity].
Defined.

Lemma revision_distinguishes_git_names_witness :
  let p1 :=
    mkPackage "repo.git-deadbeef"
      (fetchgitTarball "repo.git" "https://example.com/repo.git" "deadbeef"
         Example.nix_hash) in
  let p2 :=
    mkPackage "repo.git-cafebabe"
      (fetchgitTarball "repo.git" "https://example.com/repo.git" "cafebabe"
         Example.nix_hash) in
  (name p1 = name p2 ↔ "deadbeef" = "cafebabe") ∧
  ("deadbeef" ≠ "cafebabe" →
   packages Node.pathname Node.basename
            [("repo@^0.1.0", Example.git); ("repo@^0.2.0", Example.git_later)]
   = [p1; p2]).
Proof.
  intros p1 p2.
  apply (revision_distinguishes_git_names
           Node.pathname Node.basename "repo@^0.1.0" "repo@^0.2.0"
           Example.git Example.git_later
           "git+https://example.com/repo.git#deadbeef"
           "git+https://example.com/repo.git" "deadbeef" "/repo.git"
           "git+https://example.com/repo.git#cafebabe"
           "git+https://example.com/repo.git" "cafebabe" "/repo.git"
           [] [] p1 p2);
    try reflexivity; left; reflexivity.
Defined.

Lemma plain_names_ignore_host_and_hash_witness :
  packages Node.pathname Node.basename
           [("pkg@^1.0.0", Example.hyphenated); ("pkg@~1.0.0", Example.mirrored)]
  = [mkPackage (namespace_of "pkg@^1.0.0" +:+
                Node.basename "/@my-scope/pkg/-/pkg-1.0.0.tgz")
       (fetchurl (Node.basename "/@my-scope/pkg/-/pkg-1.0.0.tgz")
          "https://registry.yarnpkg.com/@my-scope/pkg/-/pkg-1.0.0.tgz"
          (JS.interp (head ["abc123"])))].
Proof.
  apply (plain_names_ignore_host_and_hash
           Node.pathname Node.basename "pkg@^1.0.0" "pkg@~1.0.0"
           Example.hyphenated Example.mirrored
           "https://registry.yarnpkg.com/@my-scope/pkg/-/pkg-1.0.0.tgz#abc123"
           "https://registry.yarnpkg.com/@my-scope/pkg/-/pkg-1.0.0.tgz"
           "/@my-scope/pkg/-/pkg-1.0.0.tgz"
           "https://mirror.example.org/tarballs/pkg-1.0.0.tgz#ffff00"
           "https://mirror.example.org/tarballs/pkg-1.0.0.tgz"
           "/tarballs/pkg-1.0.0.tgz" ["abc123"] ["ffff00"]);
    try reflexivity; discriminate.
Defined.

Lemma word_scopes_keep_names_apart_witness :
  let p1 :=
    mkPackage "@scope-pkg-1.0.0.tgz"
      (fetchurl "pkg-1.0.0.tgz"
         "https://registry.yarnpkg.com/@scope/pkg/-/pkg-1.0.0.tgz" "abc123") in
  let p2 :=
    mkPackage "@other-pkg-1.0.0.tgz"
      (fetchurl "pkg-1.0.0.tgz"
         "https://registry.yarnpkg.com/@scope/pkg/-/pkg-1.0.0.tgz" "abc123") in
  name p1 ≠ name p2 ∧
  packages Node.pathname Node.basename
           [("@" +:+ "scope" +:+ "/" +:+ "pkg@^1.0.0", Example.scoped);
            ("@" +:+ "other" +:+ "/" +:+ "pkg@^1.0.0", Example.scoped)]
  = [p1; p2].
Proof.
  intros p1 p2.
  apply (word_scopes_keep_names_apart
           Node.pathname Node.basename "scope" "pkg@^1.0.0" "other"
           "pkg@^1.0.0" Example.scoped Example.scoped p1 p2);
    try reflexivity; discriminate.
Defined.

Lemma generateNix_stops_at_null_pathname_witness :
  generateNix Node.pathname Node.basename
    ([("@scope/pkg@^1.0.0", Example.scoped)] ++
     ("norepo@^1.0.0", Example.git_no_path) :: [("repo@^0.1.0", Example.git)])
  = (HEAD :: (render_package <$>
                packages Node.pathname Node.basename
                         [("@scope/pkg@^1.0.0", Example.scoped)]),
     Thrown).
Proof.
  apply (generateNix_stops_at_null_pathname
           Node.pathname Node.basename
           [("@scope/pkg@^1.0.0", Example.scoped)]
           [("repo@^0.1.0", Example.git)]
           "norepo@^1.0.0" Example.git_no_path
           "git+https://example.com#deadbeef");
    try reflexivity; discriminate.
Defined.

Lemma tokenless_entry_is_fetched_witness :
  updateResolvedSha1_start Example.git_no_rev
  = AwaitSha1 "git+https://example.com/repo.git" ∧
  (∀ e, Example.getSha1 "git+https://example.com/repo.git" = Rejected e →
        updateResolvedSha1 Example.getSha1 Example.getGitSha1
                           Example.git_no_rev = Rejected e) ∧
  (∀ d, Example.getSha1 "git+https://example.com/repo.git" = Fulfilled d →
        updateResolvedSha1 Example.getSha1 Example.getGitSha1
                           Example.git_no_rev
        = Fulfilled (mkEntry (Some resolved_literal)
                             (sha256 Example.git_no_rev)
                             (others Example.git_no_rev))).
Proof.
  apply (tokenless_entry_is_fetched
           Example.getSha1 Example.getGitSha1 Example.git_no_rev
           "git+https://example.com/repo.git"
           "git+https://example.com/repo.git" []);
    try reflexivity; discriminate.
Defined.

Lemma git_entry_is_prefetched_witness :
  updateResolvedSha1 Example.getSha1_down Example.getGitSha1
                     Example.git_unhashed
  = Fulfilled
      (mkEntry (Some "git+https://example.com/repo.git#deadbeef")
               (Some Example.nix_hash) (others Example.git_unhashed)).
Proof.
  apply (git_entry_is_prefetched
           Example.getSha1_down Example.getGitSha1 Example.git_unhashed
           "git+https://example.com/repo.git#deadbeef"
           "git+https://example.com/repo.git" "deadbeef" []);
    try reflexivity; [discriminate|left; reflexivity].
Defined.

Lemma no_lookup_iff_witness :
  updateResolvedSha1 Example.getSha1_down Example.getGitSha1 Example.scoped
  = Fulfilled Example.scoped.
Proof.
  apply (no_lookup_iff Example.getSha1_down Example.getGitSha1 Example.scoped).
  reflexivity.
Defined.

Lemma rotation_is_complete : [2; 0; 1] ≡ₚ seq 0 3.
Proof. apply (Permutation_cons_app [0; 1] [] 2). reflexivity. Qed.

Lemma reconcile_is_pointwise_witness :
  ∃ h,
    reconcile Example.getSha1 Example.getGitSha1 [2; 0; 1]
              Example.git_obj Example.git_store = (h, None) ∧
    (∀ key r, (key, r) ∈ Example.git_obj →
              updateResolvedSha1 Example.getSha1 Example.getGitSha1
                                 (Example.git_store r) = Fulfilled (h r)) ∧
    (∀ r, r ∉ values Example.git_obj → h r = Example.git_store r).
Proof.
  apply (reconcile_is_pointwise
           Example.getSha1 Example.getGitSha1 [2; 0; 1]
           Example.git_obj Example.git_store).
  - exact rotation_is_complete.
  - repeat (apply Forall_cons; split; [reflexivity|]). apply Forall_nil_2.
Defined.

(** The pair a reconciliation that succeeds returns. *)
Lemma reconcile_pair getSha1 getGitSha1 sched obj (orig : store) :
  (reconcile getSha1 getGitSha1 sched obj orig).2 = None →
  reconcile getSha1 getGitSha1 sched obj orig
  = ((reconcile getSha1 getGitSha1 sched obj orig).1, None).
Proof. destruct (reconcile _ _ _ _ _) as [h st]. simpl. by intros ->. Qed.

Lemma reconcile_order_independent_witness :
  entries Example.git_obj
    (reconcile Example.getSha1 Example.getGitSha1 [2; 0; 1]
               Example.git_obj Example.git_store).1
  = entries Example.git_obj
      (reconcile Example.getSha1 Example.getGitSha1 [0; 1; 2]
                 Example.git_obj Example.git_store).1.
Proof.
  apply (reconcile_order_independent
           Example.getSha1 Example.getGitSha1 [2; 0; 1] [0; 1; 2]
           Example.git_obj Example.git_store).
  - exact rotation_is_complete.
  - reflexivity.
  - apply reconcile_pair. reflexivity.
  - apply reconcile_pair. reflexivity.
Defined.

Lemma reconcile_idempotent_witness :
  Forall (λ kr, fully_hashed Example.getGitSha1
                  ((reconcile Example.getSha1 Example.getGitSha1 [2; 0; 1]
                      Example.unhashed_obj Example.unhashed_store).1 kr.2)
                = true)
         Example.unhashed_obj.
Proof.
  apply (reconcile_idempotent
           Example.getSha1 Example.getGitSha1 [2; 0; 1] [1; 0; 2]
           Example.unhashed_obj Example.unhashed_store).
  - exact rotation_is_complete.
  - apply reconcile_pair. reflexivity.
Defined.

Lemma first_failure_is_reported_witness :
  (reconcile Example.getSha1_flaky Example.getGitSha1 ([2] ++ 0 :: [1])
             Example.unhashed_obj Example.unhashed_store).2
  = Some "Error: Request Failed.".
Proof.
  apply (first_failure_is_reported
           Example.getSha1_flaky Example.getGitSha1 [2] [1] 0
           Example.unhashed_obj Example.unhashed_store "a@^1.0.0" 0);
    [|reflexivity|reflexivity].
  intros j k' r' Hj%list_elem_of_singleton. subst j.
  intros [= <- <-]. reflexivity.
Defined.

Lemma no_nix_prints_nothing_witness :
  Forall (λ e, is_stdout e = false)
    (main Node.pathname Node.basename Example.getSha1 Example.getGitSha1
          (Example.parse (Example.unhashed_obj, Example.unhashed_store))
          Example.stringify (Example.opts true false) "a@^1.0.0:" [0; 1; 2]).
Proof.
  apply (no_nix_prints_nothing
           Node.pathname Node.basename Example.getSha1 Example.getGitSha1
           (Example.parse (Example.unhashed_obj, Example.unhashed_store))
           Example.stringify (Example.opts true false)).
  reflexivity.
Defined.

Lemma exit_status_conditions_witness :
  exit_code
    (main Node.pathname Node.basename Example.getSha1 Example.getGitSha1
          (Example.parse (Example.hashed_obj, Example.hashed_store))
          Example.stringify (Example.opts false false) "" [0; 1; 2; 3])
  = Some 0.
Proof.
  destruct (exit_status_conditions
              Node.pathname Node.basename Example.getSha1 Example.getGitSha1
              (Example.parse (Example.hashed_obj, Example.hashed_store))
              Example.stringify (Example.opts false false) "" [0; 1; 2; 3]
              Example.hashed_obj Example.hashed_store)
    as (_ & _ & H); [reflexivity|reflexivity|].
  apply (H (reconcile Example.getSha1 Example.getGitSha1 [0; 1; 2; 3]
                      Example.hashed_obj Example.hashed_store).1).
  - apply reconcile_pair. reflexivity.
  - reflexivity.
  - right. reflexivity.
Defined.


Lemma writes_at_most_its_lockfile_witness :
  filter (λ e, is_write e = true)
    (main Node.pathname Node.basename Example.getSha1_down Example.getGitSha1
          (Example.parse (Example.unhashed_obj, Example.unhashed_store))
          Example.stringify (Example.opts false false) "a@^1.0.0:" [0; 1; 2])
  = [].
Proof.
  destruct (writes_at_most_its_lockfile
              Node.pathname Node.basename Example.getSha1_down
              Example.getGitSha1
              (Example.parse (Example.unhashed_obj, Example.unhashed_store))
              Example.stringify (Example.opts false false) "a@^1.0.0:"
              [0; 1; 2]) as [H|(obj & orig & h & _ & _ & _ & _ & H)].
  - exact H.
  - discriminate H.
Defined.

Lemma failed_catalog_is_partial_witness :
  let t :=
    main Node.pathname Node.basename Example.getSha1 Example.getGitSha1
         (Example.parse (Example.broken_obj, Example.broken_store))
         Example.stringify (Example.opts false false) "" [0; 1; 2] in
  exit_code t = Some 1 ∧ Stdout HEAD ∈ t ∧ Stdout "}" ∉ t.
Proof.
  apply (failed_catalog_is_partial
           Node.pathname Node.basename Example.getSha1 Example.getGitSha1
           (Example.parse (Example.broken_obj, Example.broken_store))
           Example.stringify (Example.opts false false) "" [0; 1; 2]
           Example.broken_obj Example.broken_store
           (reconcile Example.getSha1 Example.getGitSha1 [0; 1; 2]
                      Example.broken_obj Example.broken_store).1).
  - reflexivity.
  - apply reconcile_pair. reflexivity.
  - right. reflexivity.
  - reflexivity.
  - reflexivity.
Defined.

Lemma reconciled_git_entry_is_printed_with_hash_witness :
  ∃ pkg',
    updateResolvedSha1 Example.getSha1 Example.getGitSha1 Example.git_unhashed
    = Fulfilled pkg' ∧
    generateNix_entry Node.pathname Node.basename "repo@^0.1.0" pkg'
    = Derived
        (mkPackage
           (namespace_of "repo@^0.1.0" +:+ Node.basename "/repo.git" +:+ "-"
              +:+ "deadbeef")
           (fetchgitTarball (Node.basename "/repo.git")
              (if JS.starts_with "git+https://"
                                 "git+https://example.com/repo.git"
               then JS.substr 4 "git+https://example.com/repo.git"
               else "git+https://example.com/repo.git")
              "deadbeef" Example.nix_hash)).
Proof.
  apply (reconciled_git_entry_is_printed_with_hash
           Node.pathname Node.basename Example.getSha1 Example.getGitSha1
           "repo@^0.1.0" Example.git_unhashed
           "git+https://example.com/repo.git#deadbeef"
           "git+https://example.com/repo.git" "deadbeef" "/repo.git"
           Example.nix_hash []);
    try reflexivity; [discriminate|left; reflexivity].
Defined.

Lemma getSha1_fulfilled_iff_witness :
  getSha1_response string Example.createHash Example.update Example.hex 200
                   [OnData "ab"; OnData "c"; OnEnd; OnError "late"]
  = Some (Fulfilled "abc").
Proof.
  apply (getSha1_fulfilled_iff
           string Example.createHash Example.update Example.hex).
  split; [reflexivity|].
  exists ["ab"; "c"], [OnError "late"]. split; reflexivity.
Defined.

Lemma getSha1_rejected_iff_witness :
  getSha1_response string Example.createHash Example.update Example.hex 200
                   [OnData "ab"; OnError "socket hang up"; OnEnd]
  = Some (Rejected "socket hang up").
Proof.
  apply (getSha1_rejected_iff
           string Example.createHash Example.update Example.hex).
  right. split; [reflexivity|].
  exists ["ab"], [OnEnd]. reflexivity.
Defined.

Lemma getSha1_pending_iff_witness :
  getSha1_response string Example.createHash Example.update Example.hex 200
                   [OnData "ab"; OnData "c"]
  = None.
Proof.
  apply (getSha1_pending_iff
           string Example.createHash Example.update Example.hex).
  split; [reflexivity|]. exists ["ab"; "c"]. reflexivity.
Defined.

Lemma getSha1_ignores_chunking_witness :
  getSha1_response string Example.createHash Example.update Example.hex 200
                   ((OnData <$> ["ab"; "c"]) ++ OnEnd :: [])
  = getSha1_response string Example.createHash Example.update Example.hex 200
                     ((OnData <$> ["a"; ""; "bc"]) ++ OnEnd :: [OnEnd]).
Proof.
  apply (getSha1_ignores_chunking
           string Example.createHash Example.update Example.hex
           ["ab"; "c"] ["a"; ""; "bc"] [] [OnEnd]).
  - intros h a b. apply append_assoc.
  - intros h. apply append_nil_r.
  - reflexivity.
Defined.

(** * C1: where the two components split [resolved] *)

Section SplitResolved.

Variable url_parse_pathname : string → option string.
Variable path_basename : string → string.

(** C1, as amended.  Both components split [resolved] at its FIRST ['#'].
    For a [resolved] made of a url part [u] without ['#'], a ['#'] and a
    token [tok] without ['#'], possibly followed by another ['#'] and
    more text: the Catalog Builder takes the file name from [u], prints
    [u] (or the repository url [is_https_git] makes of [u]) as the url
    and [tok] as the hash or revision; the Reconciler fetches [u] when
    [tok] is empty and otherwise calls the resolution tool, for a
    source-control [u], with [tok] as revision.  The text after a second
    ['#'] is used by neither.  When [resolved] has exactly one ['#'] this
    is the split at the last ['#']. *)
Theorem resolved_split_at_first_hash
        (depRange : string) (dep : LockEntry) (r u tok pathname : string) :
  JS.lacks "#" u = true →
  JS.lacks "#" tok = true →
  r = u +:+ "#" +:+ tok ∨ (∃ more, r = u +:+ "#" +:+ tok +:+ "#" +:+ more) →
  resolved dep = Some r →
  (url_parse_pathname u = Some pathname →
   generateNix_entry url_parse_pathname path_basename depRange dep
   = Derived
       (mkPackage
          (namespace_of depRange +:+
             match is_https_git u with
             | Some _ => path_basename pathname +:+ "-" +:+ tok
             | None => path_basename pathname
             end)
          match is_https_git u with
          | Some git_url =>
              fetchgitTarball (path_basename pathname) git_url tok
                              (JS.interp (sha256 dep))
          | None => fetchurl (path_basename pathname) u tok
          end)) ∧
  updateResolvedSha1_start dep
  = (if String.eqb tok "" then AwaitSha1 u
     else match is_https_git u with
          | Some git_url => AwaitGitSha1 git_url tok
          | None => Returned
          end) ∧
  (r = u +:+ "#" +:+ tok → split_at_last r = Some (u, tok)).
Proof.
  intros Hu Ht Hshape Hr.
  destruct (destructure2_first_hash u tok Hu Ht) as (H1 & H2 & H3 & H4).
  assert (JS.destructure2 (JS.split "#" r) = (u, Some tok) ∧
          JS.destructure2 (JS.split_limit "#" 2 r) = (u, Some tok) ∧
          r ≠ "") as (Hs & Hl & Hne).
  { destruct Hshape as [->|[more ->]].
    - split; [done|]. split; [done|]. apply append_nonempty.
    - destruct (H4 more) as [? ?]. split; [done|]. split; [done|].
      apply append_nonempty. }
  split; [|split].
  - intros Hp. apply generateNix_entry_Derived.
    by exists r, u, (Some tok), pathname.
  - unfold updateResolvedSha1_start. rewrite Hr.
    destruct r as [|c r]; [done|]. rewrite Hl.
    by destruct tok.
  - by intros ->.
Qed.

End SplitResolved.

Lemma resolved_split_at_first_hash_witness :
  let dep := mkEntry (Some "git+https://example.com/repo.git#a#b") None [] in
  generateNix_entry Node.pathname Node.basename "repo@^0.1.0" dep
  = Derived
      (mkPackage "repo.git-a"
         (fetchgitTarball "repo.git" "https://example.com/repo.git" "a"
            "undefined")) ∧
  updateResolvedSha1_start dep
  = AwaitGitSha1 "https://example.com/repo.git" "a".
Proof.
  intros dep.
  destruct (resolved_split_at_first_hash
              Node.pathname Node.basename "repo@^0.1.0" dep
              "git+https://example.com/repo.git#a#b"
              "git+https://example.com/repo.git" "a" "/repo.git")
    as (Hb & Hr & _);
    [reflexivity|reflexivity|right; by exists "b"|reflexivity|].
  split; [exact (Hb eq_refl)|exact Hr].
Defined.

(** C1, as stated, fails.  The [resolved] field
    [git+https://example.com/repo.git#a#b] has the url part
    [git+https://example.com/repo.git#a] and the token [b] when split at
    its last ['#'].  The Catalog Builder prints the repository
    [https://example.com/repo.git] at revision [a], and the Reconciler
    asks the resolution tool for that repository at revision [a].  For
    [https://example.com/a#b#c] the Catalog Builder prints the url
    [https://example.com/a] with the hash [b]. *)
Lemma resolved_not_split_at_last_hash :
  split_at_last "git+https://example.com/repo.git#a#b"
  = Some ("git+https://example.com/repo.git#a", "b") ∧
  generateNix_entry Node.pathname Node.basename "repo@^0.1.0"
    (mkEntry (Some "git+https://example.com/repo.git#a#b") None [])
  = Derived
      (mkPackage "repo.git-a"
         (fetchgitTarball "repo.git" "https://example.com/repo.git" "a"
            "undefined")) ∧
  updateResolvedSha1_start
    (mkEntry (Some "git+https://example.com/repo.git#a#b") None [])
  = AwaitGitSha1 "https://example.com/repo.git" "a" ∧
  split_at_last "https://example.com/a#b#c"
  = Some ("https://example.com/a#b", "c") ∧
  generateNix_entry Node.pathname Node.basename "a@^1.0.0"
    (mkEntry (Some "https://example.com/a#b#c") None [])
  = Derived (mkPackage "a" (fetchurl "a" "https://example.com/a" "b")) ∧
  "a" ≠ "b" ∧ "b" ≠ "c" ∧
  "https://example.com/a" ≠ "https://example.com/a#b".
Proof. repeat (split; [reflexivity|]). repeat split; discriminate. Qed.

(** * C10: what else decides whether the entry is printed *)

(** C10, as stated, fails.  A source-control entry with a token and no
    [sha256] whose url has no pathname makes the builder fail: only the
    header is printed.  When the same entry object is bound to two keys,
    the second key is skipped, because the name was already printed. *)
Lemma git_entry_without_sha256_fails_or_is_skipped :
  sha256 Example.git_no_path = None ∧
  is_https_git "git+https://example.com" = Some "https://example.com" ∧
  generateNix Node.pathname Node.basename
              [("norepo@^1.0.0", Example.git_no_path)]
  = ([HEAD], Thrown) ∧
  sha256 Example.git_unhashed = None ∧
  packages Node.pathname Node.basename
           [("repo@^0.1.0", Example.git_unhashed);
            ("repo@~0.1.0", Example.git_unhashed)]
  = [mkPackage "repo.git-deadbeef"
       (fetchgitTarball "repo.git" "https://example.com/repo.git" "deadbeef"
          "undefined")].
Proof. repeat (split; [reflexivity|]). reflexivity. Qed.
